(** * Rule-based classifier for Yayoi accounting subjects

    A shallow embedding of [yayoi_classifier/classifier.py] and the
    properties of its two operations, construction of an
    [AccountClassifier] and [classify].

    Modelling conventions.
    - A Python [str] is the list of its Unicode code points.
    - A Python [dict] is an association list in insertion order; assignment
      to an existing key replaces the value in place, assignment to a new
      key appends.  A dictionary passed as an argument is given by the
      sequence of its items; the dictionaries the code builds from it hold
      one entry per key.
    - A Python [float] is read in two ways.  [classify64] computes lines
      97-110 in binary64, on the primitive floats, one rounded operation
      for each operation of the source: what depends on the arithmetic
      (the code that wins the scan, the value of the confidence) is stated
      on it.  [classify] computes the same lines over exact rationals
      ([Q]), the literals [0.6], [0.4], [1.0] and [0.0] being 6/10, 4/10,
      1 and 0: it is used for what holds whatever the rounding.  The two
      readings differ on some inputs and agree on errors, exact matches
      and the fallback; both facts are proved below.
    - [str.lower] and [str.isspace] belong to the Python runtime (they are
      driven by the Unicode character database), not to the repository:
      they are parameters of the development.  [lower_basic] and
      [isspace_basic] are concrete instances used to run examples. *)

From Stdlib Require Import List Bool Arith NArith ZArith QArith Lia Lqa.
From Stdlib Require Import String Ascii Permutation.
From Stdlib Require Import Floats Uint63.
Import ListNotations.

Local Open Scope list_scope.

(* ------------------------------------------------------------------ *)
(** ** Strings *)

Definition char : Type := N.
Definition str : Type := list char.

(** Code points of an ASCII literal. *)
Definition str_of (s : string) : str :=
  List.map N_of_ascii (list_ascii_of_string s).

Fixpoint str_eqb (a b : str) : bool :=
  match a, b with
  | [], [] => true
  | x :: a', y :: b' => N.eqb x y && str_eqb a' b'
  | _, _ => false
  end.

(** [s.startswith(p)] *)
Fixpoint startswith (p s : str) : bool :=
  match p, s with
  | [], _ => true
  | x :: p', y :: s' => N.eqb x y && startswith p' s'
  | _ :: _, [] => false
  end.

(** [kw in s]: [kw] occurs in [s] as a contiguous substring. *)
Fixpoint contains (kw s : str) : bool :=
  startswith kw s ||
  match s with
  | [] => false
  | _ :: s' => contains kw s'
  end.

(** [len(xs)] as a Python integer. *)
Definition len {A : Type} (xs : list A) : Z := Z.of_nat (List.length xs).

(** [sum(len(m) for m in matches)] *)
Fixpoint sum_len (matches : list str) : Z :=
  match matches with
  | [] => 0%Z
  | m :: rest => (len m + sum_len rest)%Z
  end.

(** Truthiness of a sequence: [not xs] holds exactly for the empty one. *)
Definition is_empty {A : Type} (xs : list A) : bool :=
  match xs with
  | [] => true
  | _ :: _ => false
  end.

(* ------------------------------------------------------------------ *)
(** ** Insertion-ordered dictionaries *)

Definition dict (V : Type) : Type := list (str * V).

Definition keys {V : Type} (d : dict V) : list str := List.map fst d.

(** [d.get(k)]; [None] stands for an absent key. *)
Fixpoint dict_get {V : Type} (k : str) (d : dict V) : option V :=
  match d with
  | [] => None
  | (k', v) :: d' => if str_eqb k k' then Some v else dict_get k d'
  end.

(** [d[k] = v] *)
Fixpoint dict_set {V : Type} (k : str) (v : V) (d : dict V) : dict V :=
  match d with
  | [] => [(k, v)]
  | (k', v') :: d' =>
      if str_eqb k k' then (k', v) :: d' else (k', v') :: dict_set k v d'
  end.

(** [d[k].append(x)] for a dictionary of lists.  The source only ever
    appends under keys it has put there itself ([token_matches] is
    initialised from the very keys it is later indexed with, see
    [scan_hits_every_code]), so the [KeyError] of an absent key does not
    arise and an absent key is left alone here. *)
Fixpoint dict_append {A : Type} (k : str) (x : A) (d : dict (list A))
  : dict (list A) :=
  match d with
  | [] => []
  | (k', l) :: d' =>
      if str_eqb k k' then (k', l ++ [x]) :: d'
      else (k', l) :: dict_append k x d'
  end.

(** [x or {}] for an optional dictionary. *)
Definition or_empty {V : Type} (x : option (dict V)) : dict V :=
  match x with
  | None => []
  | Some d => if is_empty d then [] else d
  end.

(* ------------------------------------------------------------------ *)
(** ** Floats as rationals (the exact reading) *)

(** [x < y] *)
Definition Qltb (x y : Q) : bool := negb (Qle_bool y x).

(** Python's two-argument [min(a, b)]: [b] when [b < a], otherwise [a]. *)
Definition py_min (a b : Q) : Q := if Qltb b a then b else a.

(* ------------------------------------------------------------------ *)
(** ** Values of the module *)

Inductive exn : Type :=
| ValueError (msg : string).

Record ClassificationResult : Type := mkResult {
  subject_code : str;
  confidence : Q;
  matched_keywords : list str
}.

Record AccountClassifier : Type := mkClassifier {
  keyword_map : dict (list str);
  exact_lookup : dict str
}.

(** The two failures of the specification are the two [ValueError]s of
    the source, told apart by their message. *)
Definition InvalidConfiguration : exn :=
  ValueError "keyword_map must not be empty".
Definition InvalidInput : exn :=
  ValueError "text must not be empty".

(** A method body: it receives [self], may raise, and hands [self] on. *)
Definition M (A : Type) : Type :=
  AccountClassifier -> AccountClassifier * (exn + A).

Definition ret {A : Type} (a : A) : M A := fun self => (self, inr a).
Definition raise {A : Type} (e : exn) : M A := fun self => (self, inl e).
Definition bind {A B : Type} (m : M A) (f : A -> M B) : M B :=
  fun self =>
    match m self with
    | (self', inl e) => (self', inl e)
    | (self', inr a) => f a self'
    end.
(** Reading an attribute [self.f]. *)
Definition attr {A : Type} (f : AccountClassifier -> A) : M A :=
  fun self => (self, inr (f self)).

Notation "x <- m ;; k" := (bind m (fun x => k))
  (at level 61, m at next level, right associativity).

(** State of the selection loop: [best_code], [best_score],
    [best_keywords]. *)
Definition best : Type := (option str * Q * list str)%type.

Section Runtime.

(** [str.lower] and [str.isspace] of the Python runtime. *)
Variable lower : str -> str.
Variable isspace : char -> bool.

Fixpoint lstrip (s : str) : str :=
  match s with
  | [] => []
  | c :: s' => if isspace c then lstrip s' else s
  end.

Definition rstrip (s : str) : str := rev (lstrip (rev s)).

(** [s.strip()] *)
Definition strip (s : str) : str := rstrip (lstrip s).

(** [AccountClassifier.__init__] *)
Definition AccountClassifier_init
    (keyword_map_arg : dict (list str))
    (exact_lookup_arg : option (dict str)) : exn + AccountClassifier :=
  if is_empty keyword_map_arg then
    inl (ValueError "keyword_map must not be empty")
  else
    inr {|
      keyword_map :=
        fold_left
          (fun d (item : str * list str) =>
             let (code, keywords) := item in
             dict_set code (List.map lower keywords) d)
          keyword_map_arg [];
      exact_lookup :=
        fold_left
          (fun d (item : str * str) =>
             let (key, value) := item in
             dict_set (lower key) value d)
          (or_empty exact_lookup_arg) []
    |}.

(** [{code: [] for code in self.keyword_map}] *)
Definition token_matches_init (km : dict (list str)) : dict (list str) :=
  fold_left (fun d code => dict_set code [] d) (keys km) [].

(** The inner loop over one code's keywords. *)
Definition scan_code (normalized code : str) (keywords : list str)
    (token_matches : dict (list str)) : dict (list str) :=
  fold_left
    (fun tm kw =>
       if contains kw normalized then dict_append code kw tm else tm)
    keywords token_matches.

(** The loop over [self.keyword_map.items()]. *)
Definition scan (normalized : str) (km : dict (list str))
    (token_matches : dict (list str)) : dict (list str) :=
  fold_left
    (fun tm (item : str * list str) =>
       let (code, keywords) := item in
       scan_code normalized code keywords tm)
    km token_matches.

(** One round of the loop over [token_matches.items()], in the exact
    reading of the floats. *)
Definition select_step (normalized : str) (st : best)
    (item : str * list str) : best :=
  let '(best_code, best_score, best_keywords) := st in
  let (code, matches) := item in
  if is_empty matches then st
  else
    let raw_score := len matches in
    let density :=
      (inject_Z (sum_len matches) / inject_Z (Z.max (len normalized) 1))%Q in
    let score := (0.6 * inject_Z raw_score + 0.4 * density)%Q in
    if Qltb best_score score then (Some code, score, matches) else st.

Definition select (normalized : str) (token_matches : dict (list str))
  : best :=
  fold_left (select_step normalized) token_matches (None, 0%Q, []).

(** [AccountClassifier.classify], in the exact reading of the floats. *)
Definition classify (text : str) : M ClassificationResult :=
  let normalized := strip (lower text) in
  if is_empty normalized then
    raise (ValueError "text must not be empty")
  else
    lookup <- attr exact_lookup ;;
    match dict_get normalized lookup with
    | Some subject => ret (mkResult subject 1.0 [normalized])
    | None =>
        km <- attr keyword_map ;;
        let token_matches :=
          scan normalized km (token_matches_init km) in
        let '(best_code, best_score, best_keywords) :=
          select normalized token_matches in
        match best_code with
        | None => ret (mkResult (str_of "UNCLASSIFIED") 0.0 [])
        | Some code =>
            let confidence :=
              py_min (best_score / (best_score + 1.0)) 1.0 in
            ret (mkResult code confidence best_keywords)
        end
    end.

(** What a call [self.classify(text)] returns or raises. *)
Definition classify_result (self : AccountClassifier) (text : str)
  : exn + ClassificationResult :=
  snd (classify text self).

End Runtime.

(* ------------------------------------------------------------------ *)
(** ** The arithmetic of lines 97-110 in binary64 *)

Set Warnings "-inexact-float".

(** [float(n)] for a Python integer [0 <= n < 2^63], rounded to nearest
    even. *)
Definition float_of_int (z : Z) : float :=
  PrimFloat.of_uint63 (Uint63.of_Z z).

(** Python's two-argument [min(a, b)] on floats: [b] when [b < a],
    otherwise [a]. *)
Definition py_min64 (a b : float) : float :=
  if PrimFloat.ltb b a then b else a.

(** [ClassificationResult] with its confidence as the binary64 value the
    source returns. *)
Record ClassificationResult64 : Type := mkResult64 {
  subject_code64 : str;
  confidence64 : float;
  matched_keywords64 : list str
}.

Definition best64 : Type := (option str * float * list str)%type.

(** One round of the loop over [token_matches.items()], computed as the
    source computes it.  [0.6 * raw_score] converts the integer to a float
    and multiplies; the true division of the two integers is the quotient
    of their conversions, which is what Python returns when both are below
    2^53 (both are then floats exactly and the quotient is rounded once). *)
Definition select_step64 (normalized : str) (st : best64)
    (item : str * list str) : best64 :=
  let '(best_code, best_score, best_keywords) := st in
  let (code, matches) := item in
  if is_empty matches then st
  else
    let raw_score := len matches in
    let density :=
      (float_of_int (sum_len matches)
       / float_of_int (Z.max (len normalized) 1))%float in
    let score := (0.6 * float_of_int raw_score + 0.4 * density)%float in
    if (best_score <? score)%float then (Some code, score, matches) else st.

Definition select64 (normalized : str) (token_matches : dict (list str))
  : best64 :=
  fold_left (select_step64 normalized) token_matches (None, 0.0%float, []).

Section Runtime64.

Variable lower : str -> str.
Variable isspace : char -> bool.

(** [AccountClassifier.classify], with the floats of the source. *)
Definition classify64 (text : str) : M ClassificationResult64 :=
  let normalized := strip isspace (lower text) in
  if is_empty normalized then
    raise (ValueError "text must not be empty")
  else
    lookup <- attr exact_lookup ;;
    match dict_get normalized lookup with
    | Some subject => ret (mkResult64 subject 1.0%float [normalized])
    | None =>
        km <- attr keyword_map ;;
        let token_matches :=
          scan normalized km (token_matches_init km) in
        let '(best_code, best_score, best_keywords) :=
          select64 normalized token_matches in
        match best_code with
        | None => ret (mkResult64 (str_of "UNCLASSIFIED") 0.0%float [])
        | Some code =>
            let confidence :=
              py_min64 (best_score / (best_score + 1.0)) 1.0 in
            ret (mkResult64 code confidence best_keywords)
        end
    end.

End Runtime64.

(* ------------------------------------------------------------------ *)
(** ** Notions used to state the properties *)

(** The keywords of a list that occur in the normalized text, in the
    order of the list (section 4.1, step 2 of the specification). *)
Definition matching_keywords (normalized : str) (keywords : list str)
  : list str :=
  filter (fun kw => contains kw normalized) keywords.

(** What the keyword scan records for every code, in the order of the
    mapping. *)
Definition token_matches_of (normalized : str) (km : dict (list str))
  : dict (list str) :=
  List.map
    (fun item : str * list str =>
       (fst item, matching_keywords normalized (snd item)))
    km.

(** The score of the specification:
    0.6 * raw_score + 0.4 * density. *)
Definition score_of (normalized : str) (matches : list str) : Q :=
  (0.6 * inject_Z (len matches)
   + 0.4 * (inject_Z (sum_len matches)
            / inject_Z (Z.max (len normalized) 1)))%Q.

(** A string that starts or ends with a whitespace character. *)
Definition outer_space (isspace : char -> bool) (s : str) : bool :=
  match s with
  | [] => false
  | c :: _ => isspace c || isspace (last s c)
  end.

Definition str_eq_dec : forall a b : str, {a = b} + {a <> b} :=
  list_eq_dec N.eq_dec.

(** The score as the source computes it, in binary64. *)
Definition score64 (normalized : str) (matches : list str) : float :=
  (0.6 * float_of_int (len matches)
   + 0.4 * (float_of_int (sum_len matches)
            / float_of_int (Z.max (len normalized) 1)))%float.

(** Sizes below 2^53: the text, and for every code the number of its
    keywords times the length of the text.  Every integer the source
    converts to a float is then a float exactly. *)
Definition receivable (normalized : str) (km : dict (list str)) : Prop :=
  (len normalized < 2 ^ 53)%Z
  /\ forall code keywords,
      In (code, keywords) km ->
      (len keywords * len normalized < 2 ^ 53)%Z.

(** The same sizes below 2^[bits]. *)
Definition sizes_below (bits : Z) (normalized : str) (km : dict (list str))
  : Prop :=
  (len normalized < 2 ^ bits)%Z
  /\ forall code keywords,
      In (code, keywords) km ->
      (len keywords * len normalized < 2 ^ bits)%Z.

(** A positive normal float, by its specification: a 53-bit mantissa and
    a binary order of magnitude (53 + exponent) between [lo] and [hi]. *)
Definition sf_in (lo hi : Z) (x : spec_float) : Prop :=
  match x with
  | S754_finite false m e =>
      Zpos (digits2_pos m) = 53%Z /\ (lo <= 53 + e <= hi)%Z
  | _ => False
  end.

(** Zero or a positive finite float. *)
Definition sf_fin (x : spec_float) : Prop :=
  match x with
  | S754_zero false | S754_finite false _ _ => True
  | _ => False
  end.

(* ------------------------------------------------------------------ *)
(** ** A concrete runtime for examples *)

(** Lowercasing of the letters A-Z, every other code point unchanged: it
    agrees with [str.lower] on text whose only cased characters are ASCII
    letters. *)
Definition lower_basic (s : str) : str :=
  List.map
    (fun c : char =>
       if (65 <=? c)%N && (c <=? 90)%N then (c + 32)%N else c)
    s.

(** The ASCII whitespace characters and the ideographic space. *)
Definition isspace_basic (c : char) : bool :=
  ((9 <=? c)%N && (c <=? 13)%N) || ((28 <=? c)%N && (c <=? 32)%N)
  || N.eqb c 12288.

Definition DEFAULT_KEYWORDS : dict (list str) :=
  [ (str_of "411",
     [[22770; 19978]; [36009; 22770]; [20837; 37329]; [22770; 25499]]);
    (str_of "521",
     [[20181; 20837]; [36092; 20837]; [36023; 25499]; [30330; 27880]]);
    (str_of "611",
     [[26053; 36027]; [20132; 36890]; [38651; 36554];
      [12479; 12463; 12471; 12540]; [20986; 24373]]);
    (str_of "622",
     [[36890; 20449]; [38651; 35441];
      [12452; 12531; 12479; 12540; 12493; 12483; 12488]; str_of "wifi"]);
    (str_of "631",
     [[20250; 35696]; [25171; 21512; 12379]; [25031; 35242; 20250];
      [20250; 39135]]);
    (str_of "701", [[32102; 19982]; [32102; 26009]; [36035; 37329]]) ]%N.

(** [create_default_classifier] *)
Definition create_default_classifier : exn + AccountClassifier :=
  AccountClassifier_init lower_basic DEFAULT_KEYWORDS
    (Some [ ([106; 114; 26481; 26085; 26412]%N, str_of "611");
            (str_of "ntt", str_of "622") ]).

(* ------------------------------------------------------------------ *)
(** ** Sample configurations *)

Definition sample_rules : dict (list str) :=
  [ (str_of "611", [str_of "taxi"; str_of "train"]);
    (str_of "622", [str_of "wifi"; str_of "phone"]) ].

Definition sample_lookup : dict str := [ (str_of "NTT", str_of "622") ].

(** [AccountClassifier(sample_rules, exact_lookup=sample_lookup)] *)
Definition sample_engine : AccountClassifier :=
  {| keyword_map := sample_rules;
     exact_lookup := [ (str_of "ntt", str_of "622") ] |}.

(** An exact-lookup table whose only key is the empty string. *)
Definition empty_key_lookup : dict str := [ (str_of "", str_of "999") ].

Definition empty_key_engine : AccountClassifier :=
  {| keyword_map := sample_rules;
     exact_lookup := [ (str_of "", str_of "999") ] |}.

(** An exact-lookup table whose key carries surrounding blanks. *)
Definition padded_lookup : dict str := [ (str_of " NTT ", str_of "622") ].

Definition padded_engine : AccountClassifier :=
  {| keyword_map := sample_rules;
     exact_lookup := [ (str_of " ntt ", str_of "622") ] |}.

(** A keyword list whose two entries differ only in case. *)
Definition case_rules : dict (list str) :=
  [ (str_of "611", [str_of "Taxi"; str_of "taxi"]) ].

Definition case_engine : AccountClassifier :=
  {| keyword_map := [ (str_of "611", [str_of "taxi"; str_of "taxi"]) ];
     exact_lookup := [] |}.

(** [create_default_classifier] over any runtime: the tables are fixed,
    the lowercasing is the runtime's. *)
Definition create_default_classifier_with (lower : str -> str)
  : exn + AccountClassifier :=
  AccountClassifier_init lower DEFAULT_KEYWORDS
    (Some [ ([106; 114; 26481; 26085; 26412]%N, str_of "611");
            (str_of "ntt", str_of "622") ]).

(** [sample_rules] with its two codes in the other order. *)
Definition swapped_rules : dict (list str) :=
  [ (str_of "622", [str_of "wifi"; str_of "phone"]);
    (str_of "611", [str_of "taxi"; str_of "train"]) ].

Definition swapped_engine : AccountClassifier :=
  {| keyword_map := swapped_rules;
     exact_lookup := [ (str_of "ntt", str_of "622") ] |}.

(** Rules in which one code lists the empty keyword. *)
Definition empty_keyword_rules : dict (list str) :=
  [ (str_of "611", [str_of "taxi"]); (str_of "999", [str_of ""]) ].

Definition empty_keyword_engine : AccountClassifier :=
  {| keyword_map := empty_keyword_rules; exact_lookup := [] |}.

(** Rules in which two codes have the same exact score on ["abcdefgh"]:
    three keywords of one character, two keywords of eight and seven. *)
Definition rounding_rules : dict (list str) :=
  [ (str_of "611", [str_of "a"; str_of "b"; str_of "c"]);
    (str_of "622", [str_of "abcdefgh"; str_of "abcdefg"]) ].

Definition rounding_engine : AccountClassifier :=
  {| keyword_map := rounding_rules; exact_lookup := [] |}.

(** Comparisons of specification floats, by cases on exponents and
    mantissas. *)
Ltac sf_order :=
  unfold SFltb, SFleb, SFeqb, SFcompare;
  repeat match goal with
         | |- context [Z.compare ?a ?b] =>
             destruct (Z.compare_spec a b); subst
         | |- context [Pos.compare_cont Eq ?a ?b] =>
             change (Pos.compare_cont Eq a b) with (Pos.compare a b);
             destruct (Pos.compare_spec a b); subst
         end;
  try reflexivity; try discriminate; try lia; try tauto.

(** Pairwise distinct keys of a closed dictionary, by evaluation. *)
Ltac distinct_keys :=
  vm_compute;
  repeat (constructor; [cbn [In]; intuition discriminate|]);
  constructor.

(* ------------------------------------------------------------------ *)
(** ** Strings: equality, substrings, stripping *)

Lemma str_eqb_eq (a b : str) : str_eqb a b = true <-> a = b.
Proof.
  revert b; induction a as [|x a IH]; intros [|y b]; simpl;
    try (split; [discriminate | congruence]); try tauto.
  rewrite andb_true_iff, N.eqb_eq, IH.
  split; [intros [-> ->]; reflexivity | intros H; injection H; auto].
Qed.

Lemma str_eqb_refl (a : str) : str_eqb a a = true.
Proof. apply str_eqb_eq; reflexivity. Qed.

Lemma str_eqb_spec (a b : str) : reflect (a = b) (str_eqb a b).
Proof.
  destruct (str_eqb a b) eqn:E; constructor.
  - apply str_eqb_eq; assumption.
  - intros H; apply str_eqb_eq in H; congruence.
Qed.

Lemma startswith_spec (p s : str) :
  startswith p s = true <-> exists t, s = p ++ t.
Proof.
  revert s; induction p as [|x p IH]; intros s; simpl.
  - split; [intros _; exists s; reflexivity | reflexivity].
  - destruct s as [|y s].
    + split; [discriminate | intros [t H]; discriminate].
    + rewrite andb_true_iff, N.eqb_eq, IH. split.
      * intros [-> [t ->]]. exists t; reflexivity.
      * intros [t H]. injection H as -> ->. split; [reflexivity | eauto].
Qed.

(** [contains] is substring containment. *)
Lemma contains_spec (kw s : str) :
  contains kw s = true <-> exists a b, s = a ++ kw ++ b.
Proof.
  induction s as [|y s IH].
  - simpl. rewrite orb_false_r, startswith_spec. split.
    + intros [t H]. exists [], t. assumption.
    + intros [a [b H]]. destruct a; simpl in H.
      * exists b; assumption.
      * discriminate.
  - cbn [contains]. rewrite orb_true_iff, startswith_spec, IH. split.
    + intros [[t H] | [a [b H]]].
      * exists [], t. assumption.
      * exists (y :: a), b. simpl. congruence.
    + intros [[|z a] [b H]].
      * left. exists b. assumption.
      * right. simpl in H. injection H as _ H. eauto.
Qed.

Lemma len_nonneg {A : Type} (xs : list A) : (0 <= len xs)%Z.
Proof. unfold len; lia. Qed.

Lemma len_pos {A : Type} (x : A) (xs : list A) : (1 <= len (x :: xs))%Z.
Proof. unfold len. change (List.length (x :: xs)) with (S (List.length xs)). lia. Qed.

Lemma sum_len_nonneg (ms : list str) : (0 <= sum_len ms)%Z.
Proof.
  induction ms as [|m ms IH]; simpl; [lia|].
  pose proof (len_nonneg m); lia.
Qed.

Section Strip.

Variable isspace : char -> bool.

Lemma lstrip_head (s : str) (c : char) (t : str) :
  lstrip isspace s = c :: t -> isspace c = false.
Proof.
  induction s as [|x s IH]; simpl; [discriminate|].
  destruct (isspace x) eqn:E; [assumption|].
  intros H; injection H as -> _; assumption.
Qed.

Lemma lstrip_all_space (s : str) :
  lstrip isspace s = [] <-> forallb isspace s = true.
Proof.
  induction s as [|x s IH]; simpl; [tauto|].
  destruct (isspace x); simpl; [assumption|].
  split; discriminate.
Qed.

Lemma lstrip_suffix (s : str) : exists p, s = p ++ lstrip isspace s.
Proof.
  induction s as [|x s [p IH]]; simpl.
  - exists []; reflexivity.
  - destruct (isspace x).
    + exists (x :: p). simpl. congruence.
    + exists []. reflexivity.
Qed.

Lemma forallb_rev (s : str) :
  forallb isspace (rev s) = forallb isspace s.
Proof.
  induction s as [|x s IH]; simpl; [reflexivity|].
  rewrite forallb_app, IH. simpl. rewrite andb_true_r, andb_comm.
  reflexivity.
Qed.

(** The normalized text is empty exactly for whitespace-only text. *)
Lemma strip_empty_iff (s : str) :
  strip isspace s = [] <-> forallb isspace s = true.
Proof.
  unfold strip, rstrip. split.
  - intros H.
    assert (H1 : lstrip isspace (rev (lstrip isspace s)) = []).
    { apply (f_equal (@rev char)) in H. rewrite rev_involutive in H.
      exact H. }
    apply lstrip_all_space in H1. rewrite forallb_rev in H1.
    destruct (lstrip_suffix s) as [p Hp].
    destruct (lstrip isspace s) as [|c t] eqn:E.
    + apply lstrip_all_space; assumption.
    + pose proof (lstrip_head _ _ _ E) as Hc. simpl in H1.
      rewrite Hc in H1. discriminate.
  - intros H. apply lstrip_all_space in H. rewrite H. reflexivity.
Qed.

(** The normalized text neither starts nor ends with whitespace. *)
Lemma strip_no_outer_space (s : str) :
  outer_space isspace (strip isspace s) = false.
Proof.
  unfold strip, rstrip.
  destruct (lstrip isspace s) as [|c t] eqn:E; [reflexivity|].
  pose proof (lstrip_head _ _ _ E) as Hc.
  destruct (lstrip isspace (rev (c :: t))) as [|d u] eqn:E2;
    [reflexivity|].
  pose proof (lstrip_head _ _ _ E2) as Hd.
  destruct (lstrip_suffix (rev (c :: t))) as [p Hp]. rewrite E2 in Hp.
  apply (f_equal (@rev char)) in Hp.
  rewrite rev_involutive, rev_app_distr in Hp.
  (* c :: t = rev (d :: u) ++ rev p *)
  destruct (rev (d :: u)) as [|e w] eqn:E3.
  - apply (f_equal (@List.length char)) in E3. rewrite length_rev in E3.
    discriminate.
  - unfold outer_space.
    assert (He : e = c).
    { simpl in Hp. injection Hp as -> _. reflexivity. }
    subst e. rewrite Hc, orb_false_l.
    assert (Hl : last (c :: w) c = d).
    { rewrite <- E3. simpl. apply last_last. }
    rewrite Hl. exact Hd.
Qed.

End Strip.

(* ------------------------------------------------------------------ *)
(** ** Dictionaries *)

Section DictFacts.

Variable V : Type.
Implicit Types (d : dict V) (k : str) (v : V).

Lemma dict_get_app k d1 d2 :
  dict_get k (d1 ++ d2) =
  match dict_get k d1 with
  | Some v => Some v
  | None => dict_get k d2
  end.
Proof.
  induction d1 as [|[k' v'] d1 IH]; simpl; [reflexivity|].
  destruct (str_eqb k k'); [reflexivity | exact IH].
Qed.

Lemma dict_get_none k d : dict_get k d = None <-> ~ In k (keys d).
Proof.
  induction d as [|[k' v'] d IH]; simpl; [tauto|].
  destruct (str_eqb_spec k k') as [->|N].
  - split; [discriminate | intros H; exfalso; apply H; left; reflexivity].
  - rewrite IH. split.
    + intros H [E|I]; [congruence | exact (H I)].
    + intros H I; apply H; right; exact I.
Qed.

Lemma dict_get_in k v d : dict_get k d = Some v -> In (k, v) d.
Proof.
  induction d as [|[k' v'] d IH]; simpl; [discriminate|].
  destruct (str_eqb_spec k k') as [->|N].
  - intros H; injection H as ->; left; reflexivity.
  - intros H; right; exact (IH H).
Qed.

Lemma dict_get_nodup k v d :
  NoDup (keys d) -> In (k, v) d -> dict_get k d = Some v.
Proof.
  induction d as [|[k' v'] d IH]; simpl; [tauto|].
  intros ND [E|I].
  - injection E as -> ->. rewrite str_eqb_refl; reflexivity.
  - inversion ND as [|? ? NI ND']; subst.
    destruct (str_eqb_spec k k') as [->|N].
    + exfalso; apply NI. apply (in_map fst) in I. exact I.
    + exact (IH ND' I).
Qed.

Lemma dict_get_set k k' v d :
  dict_get k (dict_set k' v d) =
  if str_eqb k k' then Some v else dict_get k d.
Proof.
  induction d as [|[k0 v0] d IH]; simpl; [reflexivity|].
  destruct (str_eqb_spec k' k0) as [->|N]; simpl.
  - destruct (str_eqb k k0); reflexivity.
  - destruct (str_eqb_spec k k0) as [->|N0].
    + destruct (str_eqb_spec k0 k') as [E|_]; [congruence | reflexivity].
    + exact IH.
Qed.

(** Assignment to a present key keeps the order of the keys. *)
Lemma dict_set_present k v d :
  In k (keys d) -> keys (dict_set k v d) = keys d.
Proof.
  induction d as [|[k0 v0] d IH]; simpl; [tauto|].
  intros H. destruct (str_eqb_spec k k0) as [->|N]; simpl; [reflexivity|].
  f_equal. apply IH. destruct H as [E|I]; [congruence | exact I].
Qed.

(** Assignment to an absent key appends the entry. *)
Lemma dict_set_absent k v d :
  ~ In k (keys d) -> dict_set k v d = d ++ [(k, v)].
Proof.
  induction d as [|[k0 v0] d IH]; simpl; [reflexivity|].
  intros H. destruct (str_eqb_spec k k0) as [->|N].
  - exfalso; apply H; left; reflexivity.
  - f_equal. apply IH. intros I; apply H; right; exact I.
Qed.

Lemma dict_set_in_keys k v d : In k (keys (dict_set k v d)).
Proof.
  induction d as [|[k0 v0] d IH]; simpl; [left; reflexivity|].
  destruct (str_eqb_spec k k0) as [->|N]; simpl; [left; reflexivity|].
  right; exact IH.
Qed.

Lemma dict_set_keys_incl k v d k' :
  In k' (keys d) -> In k' (keys (dict_set k v d)).
Proof.
  induction d as [|[k0 v0] d IH]; simpl; [tauto|].
  destruct (str_eqb k k0); simpl; tauto.
Qed.

Lemma dict_set_keys_inv k v d k' :
  In k' (keys (dict_set k v d)) -> k' = k \/ In k' (keys d).
Proof.
  induction d as [|[k0 v0] d IH]; simpl.
  - intros [E|[]]; left; congruence.
  - destruct (str_eqb k k0); simpl; tauto.
Qed.

(** The keys of a dictionary stay pairwise distinct. *)
Lemma dict_set_nodup k v d : NoDup (keys d) -> NoDup (keys (dict_set k v d)).
Proof.
  intros ND. destruct (in_dec str_eq_dec k (keys d)) as [I|NI].
  - rewrite dict_set_present; assumption.
  - rewrite dict_set_absent by assumption.
    unfold keys. rewrite map_app. simpl.
    apply NoDup_app; [exact ND | repeat constructor; auto |].
    intros x Hx [E|[]]. subst x. exact (NI Hx).
Qed.

End DictFacts.

Lemma dict_append_keys (A : Type) (k : str) (x : A) (d : dict (list A)) :
  keys (dict_append k x d) = keys d.
Proof.
  induction d as [|[k0 l] d IH]; simpl; [reflexivity|].
  destruct (str_eqb k k0); simpl; [reflexivity | f_equal; exact IH].
Qed.

(** Appending under a key reaches the first (and, keys being distinct,
    only) entry of that key. *)
Lemma dict_append_at (A : Type) (k : str) (x : A)
    (pre post : dict (list A)) (l : list A) :
  ~ In k (keys pre) ->
  dict_append k x (pre ++ (k, l) :: post) = pre ++ (k, l ++ [x]) :: post.
Proof.
  induction pre as [|[k0 l0] pre IH]; simpl; intros H.
  - rewrite str_eqb_refl; reflexivity.
  - destruct (str_eqb_spec k k0) as [->|N].
    + exfalso; apply H; left; reflexivity.
    + f_equal. apply IH. intros I; apply H; right; exact I.
Qed.

(* ------------------------------------------------------------------ *)
(** ** Rational arithmetic of the scores *)

Lemma Qltb_true (x y : Q) : Qltb x y = true <-> (x < y)%Q.
Proof.
  unfold Qltb. rewrite negb_true_iff. split.
  - intros H. apply Qnot_le_lt. intros L.
    apply Qle_bool_iff in L. congruence.
  - intros H. destruct (Qle_bool y x) eqn:E; [|reflexivity].
    apply Qle_bool_iff in E. exfalso. exact (Qlt_not_le _ _ H E).
Qed.

Lemma Qltb_false (x y : Q) : Qltb x y = false <-> (y <= x)%Q.
Proof.
  unfold Qltb. rewrite negb_false_iff. apply Qle_bool_iff.
Qed.

Lemma density_nonneg (normalized : str) (matches : list str) :
  (0 <= inject_Z (sum_len matches) / inject_Z (Z.max (len normalized) 1))%Q.
Proof.
  apply Qle_shift_div_l.
  - change 0%Q with (inject_Z 0). rewrite <- Zlt_Qlt. lia.
  - rewrite Qmult_0_l. change 0%Q with (inject_Z 0). rewrite <- Zle_Qle.
    apply sum_len_nonneg.
Qed.

(** A code with at least one match scores at least 0.6. *)
Lemma score_of_lower_bound (normalized : str) (matches : list str) :
  matches <> [] -> (0.6 <= score_of normalized matches)%Q.
Proof.
  intros H. unfold score_of.
  pose proof (density_nonneg normalized matches) as D.
  assert (L : (1 <= inject_Z (len matches))%Q).
  { change 1%Q with (inject_Z 1). rewrite <- Zle_Qle.
    destruct matches as [|m ms]; [congruence | apply len_pos]. }
  lra.
Qed.





Lemma matching_keywords_none (normalized : str) (keywords : list str) :
  (forall kw, In kw keywords -> contains kw normalized = false) ->
  matching_keywords normalized keywords = [].
Proof.
  unfold matching_keywords.
  induction keywords as [|kw kws IH]; intros H; simpl; [reflexivity|].
  rewrite (H kw (or_introl eq_refl)). apply IH.
  intros kw' J. apply H. right; exact J.
Qed.

Lemma matching_keywords_some (normalized : str) (keywords : list str)
    (kw : str) :
  In kw keywords -> contains kw normalized = true ->
  matching_keywords normalized keywords <> [].
Proof.
  intros I C E.
  assert (J : In kw (matching_keywords normalized keywords)).
  { unfold matching_keywords. apply filter_In. split; assumption. }
  rewrite E in J. exact J.
Qed.

(* ------------------------------------------------------------------ *)
(** ** The keyword scan *)

Lemma token_matches_init_from (ks : list str) (d : dict (list str)) :
  NoDup (keys d ++ ks) ->
  fold_left (fun d code => dict_set code [] d) ks d
  = d ++ List.map (fun code : str => (code, @nil str)) ks.
Proof.
  revert d; induction ks as [|c ks IH]; intros d ND; simpl.
  - rewrite app_nil_r; reflexivity.
  - assert (NI : ~ In c (keys d)).
    { apply NoDup_remove_2 in ND. intros I; apply ND.
      apply in_or_app; left; exact I. }
    rewrite (dict_set_absent _ _ _ _ NI). rewrite IH.
    + rewrite <- app_assoc. reflexivity.
    + unfold keys in *. rewrite map_app, <- app_assoc. exact ND.
Qed.

(** The comprehension gives every code the empty list. *)
Lemma token_matches_init_spec (km : dict (list str)) :
  NoDup (keys km) ->
  token_matches_init km
  = List.map (fun item : str * list str => (fst item, @nil str)) km.
Proof.
  intros ND. unfold token_matches_init.
  rewrite token_matches_init_from by exact ND.
  unfold keys. rewrite map_map. reflexivity.
Qed.

Lemma token_matches_init_keys (km : dict (list str)) (code : str) :
  In code (keys km) -> In code (keys (token_matches_init km)).
Proof.
  unfold token_matches_init.
  enough (G : forall ks d,
             In code (keys d) \/ In code ks ->
             In code (keys (fold_left
                              (fun d c => dict_set c (@nil str) d) ks d))).
  { intros H. apply G. right; exact H. }
  induction ks as [|c ks IH]; intros d H; simpl.
  - destruct H as [H|[]]; exact H.
  - apply IH. destruct H as [H|[->|H]].
    + left. apply dict_set_keys_incl; exact H.
    + left. apply dict_set_in_keys.
    + right; exact H.
Qed.

Lemma scan_code_keys (normalized code : str) (keywords : list str)
    (tm : dict (list str)) :
  keys (scan_code normalized code keywords tm) = keys tm.
Proof.
  unfold scan_code. revert tm.
  induction keywords as [|kw kws IH]; intros tm; simpl; [reflexivity|].
  rewrite IH. destruct (contains kw normalized); [|reflexivity].
  apply dict_append_keys.
Qed.

Lemma scan_keys (normalized : str) (km tm : dict (list str)) :
  keys (scan normalized km tm) = keys tm.
Proof.
  unfold scan. revert tm.
  induction km as [|[code kws] km IH]; intros tm; simpl; [reflexivity|].
  rewrite IH. apply scan_code_keys.
Qed.

(** Whenever the scan reaches a code, that code is a key of
    [token_matches]: the append never meets an absent key. *)
Lemma scan_hits_every_code (normalized : str)
    (pre post : dict (list str)) (code : str) (keywords : list str) :
  In code
     (keys (scan normalized pre
              (token_matches_init (pre ++ (code, keywords) :: post)))).
Proof.
  rewrite scan_keys. apply token_matches_init_keys.
  unfold keys. rewrite map_app. apply in_or_app. right. left. reflexivity.
Qed.

(** The inner loop appends the matching keywords of the code, in the
    order of its list. *)
Lemma scan_code_spec (normalized code : str) (keywords : list str)
    (pre post : dict (list str)) (l : list str) :
  ~ In code (keys pre) ->
  scan_code normalized code keywords (pre ++ (code, l) :: post)
  = pre ++ (code, l ++ matching_keywords normalized keywords) :: post.
Proof.
  intros NI. unfold scan_code, matching_keywords. revert l.
  induction keywords as [|kw kws IH]; intros l; simpl.
  - rewrite app_nil_r; reflexivity.
  - destruct (contains kw normalized).
    + rewrite dict_append_at by exact NI. rewrite IH.
      rewrite <- app_assoc. reflexivity.
    + apply IH.
Qed.

Lemma scan_from (normalized : str) (post pre : dict (list str)) :
  NoDup (keys (pre ++ post)) ->
  scan normalized post
    (token_matches_of normalized pre
     ++ List.map (fun item : str * list str => (fst item, @nil str)) post)
  = token_matches_of normalized (pre ++ post).
Proof.
  revert pre; induction post as [|[code kws] post IH]; intros pre ND.
  - simpl. rewrite !app_nil_r. reflexivity.
  - cbn [scan fold_left List.map fst].
    assert (NI : ~ In code (keys (token_matches_of normalized pre))).
    { unfold keys, token_matches_of. rewrite map_map. simpl.
      unfold keys in ND. rewrite map_app in ND.
      apply NoDup_remove_2 in ND. intros I; apply ND.
      apply in_or_app; left; exact I. }
    rewrite (scan_code_spec normalized code kws _ _ _ NI). simpl app.
    specialize (IH (pre ++ [(code, kws)])).
    rewrite <- app_assoc in IH. simpl app in IH.
    unfold scan in IH. unfold token_matches_of in IH at 1.
    rewrite map_app in IH. simpl List.map in IH.
    rewrite <- app_assoc in IH. simpl app in IH.
    apply IH. exact ND.
Qed.

(** Refinement of the two scan loops: for every code, in the order of the
    mapping, the keywords of its list that occur in the text. *)
Lemma token_matches_spec (normalized : str) (km : dict (list str)) :
  NoDup (keys km) ->
  scan normalized km (token_matches_init km) = token_matches_of normalized km.
Proof.
  intros ND. rewrite token_matches_init_spec by exact ND.
  apply (scan_from normalized km []). exact ND.
Qed.

(* ------------------------------------------------------------------ *)
(** ** The selection loop *)

Lemma select_step_empty (normalized : str) (st : best) (code : str) :
  select_step normalized st (code, []) = st.
Proof. destruct st as [[bc bs] bk]. reflexivity. Qed.

Lemma select_step_take (normalized : str) (bc : option str) (bs : Q)
    (bk : list str) (code : str) (matches : list str) :
  matches <> [] ->
  (bs < score_of normalized matches)%Q ->
  select_step normalized (bc, bs, bk) (code, matches)
  = (Some code, score_of normalized matches, matches).
Proof.
  intros NE L. unfold select_step.
  destruct matches as [|m ms]; [congruence|]. cbn [is_empty].
  change (0.6 * inject_Z (len (m :: ms))
          + 0.4 * (inject_Z (sum_len (m :: ms))
                   / inject_Z (Z.max (len normalized) 1)))%Q
    with (score_of normalized (m :: ms)).
  apply Qltb_true in L. rewrite L. reflexivity.
Qed.

Lemma select_step_keep (normalized : str) (bc : option str) (bs : Q)
    (bk : list str) (code : str) (matches : list str) :
  (score_of normalized matches <= bs)%Q ->
  select_step normalized (bc, bs, bk) (code, matches) = (bc, bs, bk).
Proof.
  intros L. unfold select_step.
  destruct matches as [|m ms]; [reflexivity|]. cbn [is_empty].
  change (0.6 * inject_Z (len (m :: ms))
          + 0.4 * (inject_Z (sum_len (m :: ms))
                   / inject_Z (Z.max (len normalized) 1)))%Q
    with (score_of normalized (m :: ms)).
  apply Qltb_false in L. rewrite L. reflexivity.
Qed.

(** Invariant of the loop, from any starting state: either nothing beat
    the starting score, or the loop stops on the first entry that attains
    the largest score above it. *)
Lemma select_fold (normalized : str) (items : dict (list str)) :
  forall (bc : option str) (bs : Q) (bk : list str),
    (fold_left (select_step normalized) items (bc, bs, bk) = (bc, bs, bk)
     /\ forall c m, In (c, m) items ->
                    m = [] \/ (score_of normalized m <= bs)%Q)
    \/
    (exists pre c m post,
        items = pre ++ (c, m) :: post
        /\ m <> []
        /\ fold_left (select_step normalized) items (bc, bs, bk)
           = (Some c, score_of normalized m, m)
        /\ (bs < score_of normalized m)%Q
        /\ (forall c' m', In (c', m') pre ->
               m' = [] \/ (score_of normalized m' < score_of normalized m)%Q)
        /\ (forall c' m', In (c', m') post ->
               m' = [] \/ (score_of normalized m' <= score_of normalized m)%Q)).
Proof.
  induction items as [|[c0 m0] items IH]; intros bc bs bk.
  - left. split; [reflexivity | intros c m []].
  - cbn [fold_left].
    destruct m0 as [|kw0 ms0].
    { (* no match for this code: skipped *)
      rewrite select_step_empty.
      destruct (IH bc bs bk) as [[E A] | (pre & c & m & post & E & NE & R & L & B & Af)].
      - left. split; [exact E|].
        intros c m [H|H]; [injection H as _ <-; left; reflexivity | eauto].
      - right. exists ((c0, []) :: pre), c, m, post.
        repeat split; try assumption.
        + simpl. congruence.
        + intros c' m' [H|H]; [injection H as _ <-; left; reflexivity | eauto]. }
    destruct (Qlt_le_dec bs (score_of normalized (kw0 :: ms0))) as [L0|L0].
    + (* strictly better: taken *)
      rewrite select_step_take by (assumption || discriminate).
      destruct (IH (Some c0) (score_of normalized (kw0 :: ms0)) (kw0 :: ms0))
        as [[E A] | (pre & c & m & post & E & NE & R & L & B & Af)].
      * right. exists [], c0, (kw0 :: ms0), items.
        repeat split; try assumption; try discriminate.
        intros c' m' [].
      * right. exists ((c0, kw0 :: ms0) :: pre), c, m, post.
        repeat split; try assumption.
        -- simpl. congruence.
        -- apply Qlt_trans with (score_of normalized (kw0 :: ms0)); assumption.
        -- intros c' m' [H|H]; [|eauto].
           injection H as _ <-. right. exact L.
    + (* not strictly better: kept *)
      rewrite select_step_keep by assumption.
      destruct (IH bc bs bk) as [[E A] | (pre & c & m & post & E & NE & R & L & B & Af)].
      * left. split; [exact E|].
        intros c m [H|H]; [injection H as _ <-; right; exact L0 | eauto].
      * right. exists ((c0, kw0 :: ms0) :: pre), c, m, post.
        repeat split; try assumption.
        -- simpl. congruence.
        -- intros c' m' [H|H]; [|eauto].
           injection H as _ <-. right.
           apply Qle_lt_trans with bs; assumption.
Qed.

(** The loop as the source starts it, with [best_score = 0.0]. *)
Lemma select_spec (normalized : str) (items : dict (list str)) :
  (select normalized items = (None, 0%Q, [])
   /\ forall c m, In (c, m) items -> m = [])
  \/
  (exists pre c m post,
      items = pre ++ (c, m) :: post
      /\ m <> []
      /\ select normalized items = (Some c, score_of normalized m, m)
      /\ (forall c' m', In (c', m') pre ->
             m' = [] \/ (score_of normalized m' < score_of normalized m)%Q)
      /\ (forall c' m', In (c', m') post ->
             m' = [] \/ (score_of normalized m' <= score_of normalized m)%Q)).
Proof.
  unfold select.
  destruct (select_fold normalized items None 0%Q [])
    as [[E A] | (pre & c & m & post & E & NE & R & L & B & Af)].
  - left. split; [exact E|].
    intros c m H. destruct (A c m H) as [E0|L]; [exact E0|].
    destruct m as [|kw ms]; [reflexivity|].
    assert (P : (0.6 <= score_of normalized (kw :: ms))%Q)
      by (apply score_of_lower_bound; discriminate).
    lra.
  - right. exists pre, c, m, post. repeat split; assumption.
Qed.

(* ------------------------------------------------------------------ *)
(** ** Construction and classification *)

Section Engine.

Variable lower : str -> str.
Variable isspace : char -> bool.

Local Abbreviation init := (AccountClassifier_init lower).
Local Abbreviation normalize := (fun text : str => strip isspace (lower text)).
Local Abbreviation classify' := (classify lower isspace).

Lemma keyword_comprehension_nodup (items d : dict (list str)) :
  NoDup (keys d) ->
  NoDup
    (keys
       (fold_left
          (fun d (item : str * list str) =>
             let (code, keywords) := item in
             dict_set code (List.map lower keywords) d)
          items d)).
Proof.
  revert d; induction items as [|[code kws] items IH]; intros d ND; simpl.
  - exact ND.
  - apply IH. apply dict_set_nodup. exact ND.
Qed.

(** Every keyword list of the engine is the lowercased list of some
    supplied entry of the same code. *)
Lemma keyword_comprehension_in (items d : dict (list str))
    (code : str) (kws : list str) :
  In (code, kws)
     (fold_left
        (fun d (item : str * list str) =>
           let (code, keywords) := item in
           dict_set code (List.map lower keywords) d)
        items d) ->
  In (code, kws) d
  \/ exists kws0, In (code, kws0) items /\ kws = List.map lower kws0.
Proof.
  revert d; induction items as [|[c0 k0] items IH]; intros d H; simpl in H.
  - left; exact H.
  - destruct (IH _ H) as [I|(kws0 & I & E)].
    + clear IH H. induction d as [|[c1 k1] d IHd]; simpl in I.
      * destruct I as [I|[]]. injection I as <- <-.
        right. exists k0. split; [left; reflexivity | reflexivity].
      * destruct (str_eqb_spec c0 c1) as [->|N]; simpl in I.
        -- destruct I as [I|I].
           ++ injection I as <- <-. right. exists k0.
              split; [left; reflexivity | reflexivity].
           ++ left; right; exact I.
        -- destruct I as [I|I]; [left; left; exact I|].
           destruct (IHd I) as [J|J]; [left; right; exact J | right; exact J].
    + right. exists kws0. split; [right; exact I | exact E].
Qed.

Lemma exact_comprehension_get (items d0 : dict str) (k : str) :
  dict_get k
    (fold_left
       (fun d (item : str * str) =>
          let (key, value) := item in dict_set (lower key) value d)
       items d0)
  = match
      dict_get k
        (rev (List.map
                (fun item : str * str => (lower (fst item), snd item))
                items))
    with
    | Some v => Some v
    | None => dict_get k d0
    end.
Proof.
  revert d0; induction items as [|[key value] items IH]; intros d0; simpl.
  - reflexivity.
  - rewrite IH, dict_get_app, dict_get_set. simpl.
    destruct (dict_get k (rev _)); [reflexivity|].
    destruct (str_eqb k (lower key)); reflexivity.
Qed.

Lemma exact_comprehension_keys (items d0 : dict str) (k : str) :
  In k
     (keys
        (fold_left
           (fun d (item : str * str) =>
              let (key, value) := item in dict_set (lower key) value d)
           items d0))
  <-> In k (keys d0) \/ exists key, In key (keys items) /\ k = lower key.
Proof.
  revert d0; induction items as [|[key value] items IH]; intros d0; simpl.
  - split; [tauto | intros [H|(key & [] & _)]; exact H].
  - rewrite IH. split.
    + intros [H|(key' & I & E)].
      * apply dict_set_keys_inv in H. destruct H as [->|H]; [|tauto].
        right. exists key. split; [left; reflexivity | reflexivity].
      * right. exists key'. split; [right; exact I | exact E].
    + intros [H|(key' & [<-|I] & E)].
      * left. apply dict_set_keys_incl; exact H.
      * left. subst k. apply dict_set_in_keys.
      * right. exists key'. split; assumption.
Qed.

(** What construction yields when it succeeds. *)
Lemma init_inr (km : dict (list str)) (el : option (dict str))
    (eng : AccountClassifier) :
  init km el = inr eng ->
  km <> []
  /\ NoDup (keys (keyword_map eng))
  /\ exact_lookup eng
     = fold_left
         (fun d (item : str * str) =>
            let (key, value) := item in dict_set (lower key) value d)
         (or_empty el) [].
Proof.
  unfold AccountClassifier_init.
  destruct km as [|item km]; cbn [is_empty]; [discriminate|].
  intros H; injection H as <-. cbn [keyword_map exact_lookup].
  split; [discriminate|]. split; [|reflexivity].
  apply (keyword_comprehension_nodup (item :: km) []). constructor.
Qed.

(** The engine's keyword lists are the supplied ones, lowercased. *)
Lemma init_keyword_lists (km : dict (list str)) (el : option (dict str))
    (eng : AccountClassifier) (code : str) (keywords : list str) :
  init km el = inr eng ->
  In (code, keywords) (keyword_map eng) ->
  exists supplied,
    In (code, supplied) km /\ keywords = List.map lower supplied.
Proof.
  unfold AccountClassifier_init.
  destruct (is_empty km); [discriminate|].
  intros H; injection H as <-. cbn [keyword_map]. intros J.
  destruct (keyword_comprehension_in km [] code keywords J) as [[]|G].
  exact G.
Qed.

(** [classify] never writes to [self]. *)
Lemma classify_self (self : AccountClassifier) (text : str) :
  fst (classify' text self) = self.
Proof.
  unfold classify, bind, attr, ret, raise.
  destruct (is_empty (strip isspace (lower text))); [reflexivity|].
  destruct (dict_get _ (exact_lookup self)); [reflexivity|].
  destruct (select _ _) as [[[code|] bs] bk]; reflexivity.
Qed.

Lemma classify_empty (self : AccountClassifier) (text : str) :
  normalize text = [] ->
  classify' text self = (self, inl InvalidInput).
Proof.
  intros H. unfold classify. rewrite H. reflexivity.
Qed.

Lemma classify_exact (self : AccountClassifier) (text subject : str) :
  normalize text <> [] ->
  dict_get (normalize text) (exact_lookup self) = Some subject ->
  classify' text self
  = (self, inr (mkResult subject 1.0 [normalize text])).
Proof.
  intros NE H. unfold classify, bind, attr, ret.
  destruct (strip isspace (lower text)) as [|c n] eqn:E; [congruence|].
  cbn [is_empty]. cbv beta in H. rewrite H. reflexivity.
Qed.

Lemma classify_scan (self : AccountClassifier) (text : str) :
  normalize text <> [] ->
  dict_get (normalize text) (exact_lookup self) = None ->
  NoDup (keys (keyword_map self)) ->
  classify' text self
  = (self,
     inr
       (match
          select (normalize text)
            (token_matches_of (normalize text) (keyword_map self))
        with
        | (None, _, _) => mkResult (str_of "UNCLASSIFIED") 0.0 []
        | (Some code, best_score, best_keywords) =>
            mkResult code
              (py_min (best_score / (best_score + 1.0)) 1.0)
              best_keywords
        end)).
Proof.
  intros NE H ND. unfold classify, bind, attr, ret.
  destruct (strip isspace (lower text)) as [|c n] eqn:E; [congruence|].
  cbn [is_empty]. cbv beta in H. rewrite H.
  rewrite token_matches_spec by exact ND.
  destruct (select _ _) as [[[code|] bs] bk]; reflexivity.
Qed.

(** The three outcomes of [classify] on valid input. *)
Lemma classify_cases (self : AccountClassifier) (text : str) :
  NoDup (keys (keyword_map self)) ->
  normalize text <> [] ->
  let n := normalize text in
  (exists subject,
      dict_get n (exact_lookup self) = Some subject
      /\ classify' text self = (self, inr (mkResult subject 1.0 [n])))
  \/ (dict_get n (exact_lookup self) = None
      /\ (forall code keywords,
             In (code, keywords) (keyword_map self) ->
             matching_keywords n keywords = [])
      /\ classify' text self
         = (self, inr (mkResult (str_of "UNCLASSIFIED") 0.0 [])))
  \/ (dict_get n (exact_lookup self) = None
      /\ exists pre code keywords post,
        keyword_map self = pre ++ (code, keywords) :: post
        /\ matching_keywords n keywords <> []
        /\ classify' text self
           = (self,
              inr (mkResult code
                     (py_min
                        (score_of n (matching_keywords n keywords)
                         / (score_of n (matching_keywords n keywords) + 1.0))
                        1.0)
                     (matching_keywords n keywords)))
        /\ (forall code' keywords',
               In (code', keywords') pre ->
               matching_keywords n keywords' = []
               \/ (score_of n (matching_keywords n keywords')
                   < score_of n (matching_keywords n keywords))%Q)
        /\ (forall code' keywords',
               In (code', keywords') post ->
               matching_keywords n keywords' = []
               \/ (score_of n (matching_keywords n keywords')
                   <= score_of n (matching_keywords n keywords))%Q)).
Proof.
  intros ND NE n.
  destruct (dict_get n (exact_lookup self)) as [subject|] eqn:G.
  - left. exists subject. split; [reflexivity|].
    apply classify_exact; assumption.
  - right. pose proof (classify_scan self text NE G ND) as C.
    fold n in C.
    destruct (select_spec n (token_matches_of n (keyword_map self)))
      as [[E A] | (pre' & c & m & post' & E & NEm & R & B & Af)].
    + left. split; [reflexivity|]. split.
      * intros code keywords I. apply (A code).
        unfold token_matches_of.
        apply (in_map (fun item : str * list str =>
                         (fst item, matching_keywords n (snd item)))) in I.
        exact I.
      * rewrite C, E. reflexivity.
    + right. split; [reflexivity|].
      unfold token_matches_of in E.
      apply map_eq_app in E. destruct E as (pre & rest & Ekm & Epre & Erest).
      apply map_eq_cons in Erest.
      destruct Erest as ([code keywords] & post & -> & Eit & Epost).
      simpl in Eit. injection Eit as -> <-.
      exists pre, c, keywords, post.
      split; [exact Ekm|]. split; [exact NEm|]. split.
      * rewrite C, R. reflexivity.
      * split.
        -- intros code' keywords' I. apply (B code'). rewrite <- Epre.
           apply (in_map (fun item : str * list str =>
                            (fst item, matching_keywords n (snd item)))) in I.
           exact I.
        -- intros code' keywords' I. apply (Af code'). rewrite <- Epost.
           apply (in_map (fun item : str * list str =>
                            (fst item, matching_keywords n (snd item)))) in I.
           exact I.
Qed.

End Engine.

Lemma count_occ_filter_le (f : str -> bool) (l : list str) (x : str) :
  (count_occ str_eq_dec (filter f l) x <= count_occ str_eq_dec l x)%nat.
Proof.
  induction l as [|y l IH]; simpl; [lia|].
  destruct (f y); simpl; destruct (str_eq_dec y x); lia.
Qed.

Lemma exact_comprehension_nodup (lower : str -> str) (items d : dict str) :
  NoDup (keys d) ->
  NoDup
    (keys
       (fold_left
          (fun d (item : str * str) =>
             let (key, value) := item in dict_set (lower key) value d)
          items d)).
Proof.
  revert d; induction items as [|[key value] items IH]; intros d ND; simpl.
  - exact ND.
  - apply IH. apply dict_set_nodup. exact ND.
Qed.

(** [lower_basic] leaves whitespace-only text as it is. *)
Lemma lower_basic_space (s : str) :
  forallb isspace_basic s = true -> lower_basic s = s.
Proof.
  induction s as [|c s IH]; simpl; [reflexivity|].
  rewrite andb_true_iff. intros [Hc Hs]. rewrite (IH Hs). f_equal.
  unfold isspace_basic in Hc.
  destruct ((65 <=? c)%N && (c <=? 90)%N) eqn:E; [|reflexivity].
  apply andb_true_iff in E. destruct E as [E1 E2].
  apply N.leb_le in E1, E2.
  rewrite !orb_true_iff, !andb_true_iff, !N.leb_le, N.eqb_eq in Hc.
  lia.
Qed.

(* ------------------------------------------------------------------ *)
(** ** The sample configurations, run *)

Example sample_engine_init :
  AccountClassifier_init lower_basic sample_rules (Some sample_lookup)
  = inr sample_engine.
Proof. reflexivity. Qed.

Example empty_key_engine_init :
  AccountClassifier_init lower_basic sample_rules (Some empty_key_lookup)
  = inr empty_key_engine.
Proof. reflexivity. Qed.

Example padded_engine_init :
  AccountClassifier_init lower_basic sample_rules (Some padded_lookup)
  = inr padded_engine.
Proof. reflexivity. Qed.

Example case_engine_init :
  AccountClassifier_init lower_basic case_rules None = inr case_engine.
Proof. reflexivity. Qed.

(** Scenario A of the specification: an exact vendor name. *)
Example scenario_exact_vendor :
  exists eng,
    create_default_classifier = inr eng
    /\ classify_result lower_basic isspace_basic eng
         [74; 82; 26481; 26085; 26412]%N
       = inr (mkResult (str_of "611") 1.0
                [[106; 114; 26481; 26085; 26412]%N]).
Proof. eexists. split; reflexivity. Qed.

(** Scenario B: two codes match one keyword each, the denser one wins. *)
Example scenario_keyword_match :
  exists eng r,
    create_default_classifier = inr eng
    /\ classify_result lower_basic isspace_basic eng
         [12458; 12531; 12521; 12452; 12531; 20250; 35696; 29992; 12395;
          12452; 12531; 12479; 12540; 12493; 12483; 12488; 26009; 37329;
          12434; 25903; 25173; 12356]%N
       = inr r
    /\ subject_code r = str_of "622"
    /\ matched_keywords r
       = [[12452; 12531; 12479; 12540; 12493; 12483; 12488]%N]
    /\ (0 < confidence r)%Q /\ (confidence r < 1)%Q.
Proof.
  eexists. eexists. split; [reflexivity|]. split; [reflexivity|].
  repeat split.
Qed.

(** Two codes with the same score: the first of the mapping is returned. *)
Example scenario_tie :
  score_of (str_of "taxi wifi") [str_of "taxi"]
  = score_of (str_of "taxi wifi") [str_of "wifi"]
  /\ exists r,
      classify_result lower_basic isspace_basic sample_engine
        (str_of "taxi wifi") = inr r
      /\ subject_code r = str_of "611"
      /\ matched_keywords r = [str_of "taxi"].
Proof.
  split; [reflexivity|]. eexists. split; [reflexivity|].
  split; reflexivity.
Qed.

(** Scenario C: nothing matches. *)
Example scenario_unknown :
  exists eng,
    create_default_classifier = inr eng
    /\ classify_result lower_basic isspace_basic eng
         [26410; 30693; 12398; 21462; 24341]%N
       = inr (mkResult (str_of "UNCLASSIFIED") 0.0 []).
Proof. eexists. split; reflexivity. Qed.

(** Scenario E: blank text. *)
Example scenario_blank :
  exists eng,
    create_default_classifier = inr eng
    /\ classify_result lower_basic isspace_basic eng (str_of "   ")
       = inl InvalidInput.
Proof. eexists. split; reflexivity. Qed.

(* ------------------------------------------------------------------ *)
(** ** Properties of the specification *)

Section Claims.

Variable lower : str -> str.
Variable isspace : char -> bool.

Local Abbreviation init := (AccountClassifier_init lower).
Local Abbreviation normalize :=
  (fun text : str => strip isspace (lower text)).
Local Abbreviation run := (classify lower isspace).
Local Abbreviation result := (classify_result lower isspace).

Lemma exact_key_lookup (km : dict (list str)) (el : option (dict str))
    (eng : AccountClassifier) (key subject : str) :
  init km el = inr eng ->
  In (key, subject) (exact_lookup eng) ->
  dict_get key (exact_lookup eng) = Some subject.
Proof.
  intros I H. destruct (init_inr lower km el eng I) as (_ & _ & E).
  apply dict_get_nodup; [|exact H].
  rewrite E. apply exact_comprehension_nodup. constructor.
Qed.

Lemma not_exact_key (eng : AccountClassifier) (key : str) :
  ~ In key (keys (exact_lookup eng)) ->
  dict_get key (exact_lookup eng) = None.
Proof. apply dict_get_none. Qed.

(** The keyword-scan winner, spelled out: shared by the properties of the
    scan below. *)
Lemma scan_winner (eng : AccountClassifier) (text : str) :
  NoDup (keys (keyword_map eng)) ->
  normalize text <> [] ->
  ~ In (normalize text) (keys (exact_lookup eng)) ->
  (exists code keywords,
      In (code, keywords) (keyword_map eng)
      /\ matching_keywords (normalize text) keywords <> []) ->
  let n := normalize text in
  exists pre code keywords post,
    keyword_map eng = pre ++ (code, keywords) :: post
    /\ matching_keywords n keywords <> []
    /\ run text eng
       = (eng,
          inr (mkResult code
                 (py_min
                    (score_of n (matching_keywords n keywords)
                     / (score_of n (matching_keywords n keywords) + 1.0))
                    1.0)
                 (matching_keywords n keywords)))
    /\ (forall code' keywords',
           In (code', keywords') pre ->
           matching_keywords n keywords' = []
           \/ (score_of n (matching_keywords n keywords')
               < score_of n (matching_keywords n keywords))%Q)
    /\ (forall code' keywords',
           In (code', keywords') post ->
           matching_keywords n keywords' = []
           \/ (score_of n (matching_keywords n keywords')
               <= score_of n (matching_keywords n keywords))%Q).
Proof.
  intros ND NE NK (c0 & k0 & I0 & M0) n.
  destruct (classify_cases lower isspace eng text ND NE)
    as [(subject & G & _) | [(_ & A & _) | (_ & W)]].
  - apply not_exact_key in NK. cbv beta in G. congruence.
  - exfalso. apply M0. exact (A c0 k0 I0).
  - exact W.
Qed.

(** C7: construction fails with [InvalidConfiguration] exactly when the
    keyword mapping is empty; with a non-empty keyword mapping it succeeds,
    whatever the optional exact lookup (absent, empty or not). *)
Theorem construction_fails_iff_no_rules
    (km : dict (list str)) (el : option (dict str)) :
  (init km el = inl InvalidConfiguration <-> km = [])
  /\ (km <> [] -> exists eng, init km el = inr eng)
  /\ (forall e, init km el = inl e -> e = InvalidConfiguration).
Proof.
  unfold AccountClassifier_init.
  destruct km as [|item km]; cbn [is_empty].
  - split; [split; reflexivity|]. split; [congruence|].
    intros e H; injection H as <-; reflexivity.
  - split; [split; discriminate|]. split; [eauto | discriminate].
Qed.

(** C8: [classify] fails with [InvalidInput] exactly when the lowercased
    and trimmed text is empty, that is when the lowercased text consists of
    whitespace only (the empty text included); no other failure exists,
    and the call leaves the engine as it was.  Where lowercasing leaves
    whitespace-only text alone, as the Unicode case mapping does, every
    whitespace-only text is rejected. *)
Theorem classify_fails_iff_blank (self : AccountClassifier) (text : str) :
  (result self text = inl InvalidInput <-> normalize text = [])
  /\ (normalize text = [] <-> forallb isspace (lower text) = true)
  /\ (forall e, result self text = inl e -> e = InvalidInput)
  /\ fst (run text self) = self
  /\ ((forall s, forallb isspace s = true -> lower s = s) ->
      forallb isspace text = true ->
      run text self = (self, inl InvalidInput)).
Proof.
  assert (F : forall e, result self text = inl e ->
                        e = InvalidInput /\ normalize text = []).
  { intros e. unfold classify_result, classify, bind, attr, ret, raise.
    destruct (strip isspace (lower text)) as [|c n]; cbn [is_empty].
    - simpl. intros H; injection H as <-. split; reflexivity.
    - destruct (dict_get _ (exact_lookup self)); [discriminate|].
      destruct (select _ _) as [[[code|] bs] bk]; discriminate. }
  split; [|split; [|split; [|split]]].
  - split.
    + intros H. exact (proj2 (F _ H)).
    + intros H. unfold classify_result.
      rewrite (classify_empty lower isspace self text H). reflexivity.
  - apply strip_empty_iff.
  - intros e H. exact (proj1 (F e H)).
  - apply classify_self.
  - intros L B. apply classify_empty. rewrite (L text B).
    apply strip_empty_iff. exact B.
Qed.

(** C1, amended: for every validly constructed engine and every input
    text whose normalized form (lowercased, trimmed) is not empty and is a
    key of the exact lookup, [classify] returns that key's mapped code,
    confidence exactly 1.0 and the one-element sequence holding the
    normalized text, whatever the keyword rules are and whatever keywords
    the text contains. *)
Theorem exact_match_precedence
    (km : dict (list str)) (el : option (dict str))
    (eng : AccountClassifier) (text subject : str) :
  init km el = inr eng ->
  normalize text <> [] ->
  In (normalize text, subject) (exact_lookup eng) ->
  run text eng = (eng, inr (mkResult subject 1.0 [normalize text])).
Proof.
  intros I NE H. apply classify_exact; [exact NE|].
  exact (exact_key_lookup km el eng _ _ I H).
Qed.

(** C6: for every validly constructed engine and every text that is not
    empty after normalization, when the normalized text is not a key of
    the exact lookup and contains none of the engine's keywords as a
    substring, [classify] returns ["UNCLASSIFIED"], confidence 0.0 and no
    matched keyword; it does not fail. *)
Theorem no_match_unclassified
    (km : dict (list str)) (el : option (dict str))
    (eng : AccountClassifier) (text : str) :
  init km el = inr eng ->
  normalize text <> [] ->
  ~ In (normalize text) (keys (exact_lookup eng)) ->
  (forall code keywords kw,
      In (code, keywords) (keyword_map eng) ->
      In kw keywords ->
      contains kw (normalize text) = false) ->
  run text eng = (eng, inr (mkResult (str_of "UNCLASSIFIED") 0.0 [])).
Proof.
  intros I NE NK NM.
  destruct (init_inr lower km el eng I) as (_ & ND & _).
  destruct (classify_cases lower isspace eng text ND NE)
    as [(subject & G & _) | [(_ & _ & R) | (_ & W)]].
  - apply not_exact_key in NK. cbv beta in G. congruence.
  - exact R.
  - destruct W as (pre & code & keywords & post & E & M & _).
    exfalso. apply M. apply matching_keywords_none.
    intros kw J. apply (NM code keywords kw); [|exact J].
    rewrite E. apply in_or_app. right. left. reflexivity.
Qed.

(** C2, amended: at construction every exact-lookup key is lowercased and
    not trimmed.  Classifying a text whose lowercased and trimmed form is
    not empty and equals the lowercased key of a supplied entry returns
    confidence 1.0 and the code of the last supplied entry with that
    lowercased key (the entry's own code when no later entry has the same
    lowercased key).  A key whose lowercased form starts or ends with
    whitespace equals no normalized text, so it is never hit. *)
Theorem exact_keys_lowercased_only
    (km : dict (list str)) (el : option (dict str))
    (eng : AccountClassifier) :
  init km el = inr eng ->
  (forall key',
      In key' (keys (exact_lookup eng))
      <-> exists key, In key (keys (or_empty el)) /\ key' = lower key)
  /\ (forall pre key value post text,
         or_empty el = pre ++ (key, value) :: post ->
         (forall key' value',
             In (key', value') post -> lower key' <> lower key) ->
         normalize text = lower key ->
         lower key <> [] ->
         run text eng = (eng, inr (mkResult value 1.0 [lower key])))
  /\ (forall key text,
         outer_space isspace (lower key) = true ->
         normalize text <> lower key).
Proof.
  intros I. destruct (init_inr lower km el eng I) as (_ & _ & E).
  split; [|split].
  - intros key'. rewrite E, exact_comprehension_keys. simpl. tauto.
  - intros pre key value post text D L N NE.
    rewrite <- N. apply classify_exact; [cbv beta; congruence|].
    cbv beta. rewrite N, E, exact_comprehension_get, D.
    rewrite map_app, rev_app_distr. cbn [List.map rev fst snd].
    rewrite <- app_assoc, dict_get_app.
    assert (G : dict_get (lower key)
                  (rev (List.map
                          (fun item : str * str =>
                             (lower (fst item), snd item)) post)) = None).
    { apply dict_get_none. unfold keys. rewrite map_rev, map_map.
      intros J. apply in_rev in J. apply in_map_iff in J.
      destruct J as ([key' value'] & Ek & J). simpl in Ek.
      exact (L key' value' J Ek). }
    rewrite G. simpl. rewrite str_eqb_refl. reflexivity.
  - intros key text O N.
    pose proof (strip_no_outer_space isspace (lower text)) as S.
    cbv beta in N. rewrite N in S. congruence.
Qed.

(** C4, amended: for every validly constructed engine, every valid text
    and every code, the scan records for the code exactly the entries of
    its (lowercased) keyword list that occur in the text, one record per
    entry however many offsets the keyword occurs at.  A keyword is
    therefore recorded, counted in raw_score and returned in
    matched_keywords at most as many times as the code's lowercased list
    holds it: at most once where the list holds it once. *)
Theorem keyword_recorded_once_per_entry
    (km : dict (list str)) (el : option (dict str))
    (eng : AccountClassifier) (text : str) :
  init km el = inr eng ->
  normalize text <> [] ->
  let n := normalize text in
  (forall code keywords,
      In (code, keywords) (keyword_map eng) ->
      dict_get code
        (scan n (keyword_map eng) (token_matches_init (keyword_map eng)))
      = Some (matching_keywords n keywords)
      /\ (forall kw,
             (count_occ str_eq_dec (matching_keywords n keywords) kw
              <= count_occ str_eq_dec keywords kw)%nat)
      /\ exists supplied,
          In (code, supplied) km /\ keywords = List.map lower supplied)
  /\ exists r,
      run text eng = (eng, inr r)
      /\ (matched_keywords r = [n]
          \/ matched_keywords r = []
          \/ exists keywords,
              In (subject_code r, keywords) (keyword_map eng)
              /\ matched_keywords r = matching_keywords n keywords
              /\ forall kw,
                  (count_occ str_eq_dec (matched_keywords r) kw
                   <= count_occ str_eq_dec keywords kw)%nat).
Proof.
  intros I NE n.
  destruct (init_inr lower km el eng I) as (_ & ND & _).
  split.
  - intros code keywords J. split.
    + rewrite token_matches_spec by exact ND.
      apply dict_get_nodup.
      * unfold keys, token_matches_of. rewrite map_map. exact ND.
      * unfold token_matches_of.
        apply (in_map (fun item : str * list str =>
                         (fst item, matching_keywords n (snd item)))) in J.
        exact J.
    + split; [intros kw; apply count_occ_filter_le|].
      exact (init_keyword_lists lower km el eng code keywords I J).
  - destruct (classify_cases lower isspace eng text ND NE)
      as [(subject & _ & R) | [(_ & _ & R) | (_ & W)]].
    + eexists. split; [exact R|]. left. reflexivity.
    + eexists. split; [exact R|]. right. left. reflexivity.
    + destruct W as (pre & code & keywords & post & E & _ & R & _).
      eexists. split; [exact R|]. right. right.
      exists keywords. cbn [subject_code matched_keywords].
      split; [|split; [reflexivity|]].
      * rewrite E. apply in_or_app. right. left. reflexivity.
      * intros kw. apply count_occ_filter_le.
Qed.


End Claims.

(* ------------------------------------------------------------------ *)
(** ** The properties at concrete inputs *)

(** [AccountClassifier({}, ...)] raises and
    [AccountClassifier(sample_rules)] does not. *)
Lemma construction_witness :
  AccountClassifier_init lower_basic [] None = inl InvalidConfiguration
  /\ exists eng, AccountClassifier_init lower_basic sample_rules None = inr eng.
Proof.
  split.
  - apply (construction_fails_iff_no_rules lower_basic [] None). reflexivity.
  - apply (construction_fails_iff_no_rules lower_basic sample_rules None).
    discriminate.
Defined.

(** [sample_engine.classify("   ")] raises and leaves the engine alone. *)
Lemma blank_text_witness :
  classify lower_basic isspace_basic (str_of "   ") sample_engine
  = (sample_engine, inl InvalidInput).
Proof.
  destruct (classify_fails_iff_blank lower_basic isspace_basic
              sample_engine (str_of "   ")) as (_ & _ & _ & _ & H).
  apply H; [exact lower_basic_space | reflexivity].
Defined.

(** [sample_engine.classify(" Ntt ")] takes the exact-match path. *)
Lemma exact_match_witness :
  classify lower_basic isspace_basic (str_of " Ntt ") sample_engine
  = (sample_engine, inr (mkResult (str_of "622") 1.0 [str_of "ntt"])).
Proof.
  apply (exact_match_precedence lower_basic isspace_basic
           sample_rules (Some sample_lookup) sample_engine
           (str_of " Ntt ") (str_of "622")).
  - reflexivity.
  - vm_compute. discriminate.
  - vm_compute. left. reflexivity.
Defined.

(** The key ["NTT"] is stored as ["ntt"] and hit by [" ntt "]. *)
Lemma lowercased_key_witness :
  classify lower_basic isspace_basic (str_of " ntt ") sample_engine
  = (sample_engine, inr (mkResult (str_of "622") 1.0 [str_of "ntt"])).
Proof.
  destruct (exact_keys_lowercased_only lower_basic isspace_basic
              sample_rules (Some sample_lookup) sample_engine
              sample_engine_init) as (_ & H & _).
  apply (H [] (str_of "NTT") (str_of "622") [] (str_of " ntt ")).
  - reflexivity.
  - intros key' value' [].
  - reflexivity.
  - vm_compute. discriminate.
Defined.

(** [case_engine.classify("taxi")] returns a result of one of the three
    shapes. *)
Lemma recorded_once_per_entry_witness :
  exists r,
    classify lower_basic isspace_basic (str_of "taxi") case_engine
    = (case_engine, inr r).
Proof.
  destruct (keyword_recorded_once_per_entry lower_basic isspace_basic
              case_rules None case_engine (str_of "taxi"))
    as (_ & r & R & _).
  - reflexivity.
  - vm_compute. discriminate.
  - exists r. exact R.
Defined.

(** [sample_engine.classify("hello")] falls through to the fallback. *)
Lemma no_match_witness :
  classify lower_basic isspace_basic (str_of "hello") sample_engine
  = (sample_engine, inr (mkResult (str_of "UNCLASSIFIED") 0.0 [])).
Proof.
  apply (no_match_unclassified lower_basic isspace_basic
           sample_rules (Some sample_lookup) sample_engine (str_of "hello")).
  - reflexivity.
  - vm_compute. discriminate.
  - vm_compute. intros [H|[]]. discriminate.
  - intros code keywords kw [H|[H|[]]]; injection H as <- <-;
      (intros [<-|[<-|[]]]; reflexivity).
Defined.


(* ------------------------------------------------------------------ *)
(** ** Inputs on which the specification's wording fails *)

(** C1 as worded: the engine built with the exact lookup [{"": "999"}] has
    the key [""], the text ["   "] normalizes to that key, and [classify]
    raises instead of returning code 999 with confidence 1.0. *)
Lemma exact_match_empty_key_rejected :
  AccountClassifier_init lower_basic sample_rules (Some empty_key_lookup)
  = inr empty_key_engine
  /\ In (strip isspace_basic (lower_basic (str_of "   ")), str_of "999")
        (exact_lookup empty_key_engine)
  /\ classify_result lower_basic isspace_basic empty_key_engine (str_of "   ")
     = inl InvalidInput
  /\ classify_result lower_basic isspace_basic empty_key_engine (str_of "   ")
     <> inr (mkResult (str_of "999") 1.0
               [strip isspace_basic (lower_basic (str_of "   "))]).
Proof.
  split; [reflexivity|]. split; [left; reflexivity|].
  split; [reflexivity | discriminate].
Qed.

(** C2 as worded: the key [" NTT "] is stored as [" ntt "], lowercased
    but not trimmed; the text ["ntt"] has the lowercased and trimmed form
    of that key, and [classify] does not take the exact-match path. *)
Lemma padded_exact_key_never_hit :
  AccountClassifier_init lower_basic sample_rules (Some padded_lookup)
  = inr padded_engine
  /\ keys (exact_lookup padded_engine) = [str_of " ntt "]
  /\ strip isspace_basic (lower_basic (str_of "ntt"))
     = strip isspace_basic (lower_basic (str_of " NTT "))
  /\ classify_result lower_basic isspace_basic padded_engine (str_of "ntt")
     = inr (mkResult (str_of "UNCLASSIFIED") 0.0 [])
  /\ classify_result lower_basic isspace_basic padded_engine (str_of "ntt")
     <> inr (mkResult (str_of "622") 1.0 [str_of "ntt"]).
Proof.
  split; [reflexivity|]. split; [reflexivity|]. split; [reflexivity|].
  split; [reflexivity | discriminate].
Qed.

(** C4 as worded: with the keyword list [["Taxi", "taxi"]] for code 611,
    the text ["taxi"] records the keyword ["taxi"] twice: it counts 2 in
    raw_score and appears twice in matched_keywords. *)
Lemma keyword_listed_twice_recorded_twice :
  AccountClassifier_init lower_basic case_rules None = inr case_engine
  /\ exists r,
      classify_result lower_basic isspace_basic case_engine (str_of "taxi")
      = inr r
      /\ subject_code r = str_of "611"
      /\ matched_keywords r = [str_of "taxi"; str_of "taxi"]
      /\ count_occ str_eq_dec (matched_keywords r) (str_of "taxi") = 2%nat
      /\ (confidence r == 2 # 3)%Q.
Proof.
  split; [reflexivity|]. eexists. split; [reflexivity|].
  split; [reflexivity|]. split; [reflexivity|].
  split; [vm_compute; reflexivity | reflexivity].
Qed.

(* ------------------------------------------------------------------ *)
(** ** Further facts on strings, dictionaries and scores *)

(** A string without outer whitespace is left alone by [strip]. *)
Lemma strip_id (isspace : char -> bool) (s : str) :
  outer_space isspace s = false -> strip isspace s = s.
Proof.
  destruct s as [|c t]; [reflexivity|].
  unfold outer_space. rewrite orb_false_iff. intros [Hc Hl].
  unfold strip, rstrip. cbn [lstrip]. rewrite Hc.
  destruct (rev (c :: t)) as [|d u] eqn:E.
  - apply (f_equal (@List.length char)) in E. rewrite length_rev in E.
    discriminate.
  - assert (S : c :: t = rev u ++ [d]).
    { rewrite <- (rev_involutive (c :: t)), E. reflexivity. }
    assert (L : last (c :: t) c = d) by (rewrite S; apply last_last).
    rewrite L in Hl. cbn [lstrip]. rewrite Hl.
    rewrite <- E. apply rev_involutive.
Qed.

(** A substring is not longer than the string. *)
Lemma contains_len (kw s : str) :
  contains kw s = true -> (len kw <= len s)%Z.
Proof.
  intros H. apply contains_spec in H. destruct H as (a & b & ->).
  unfold len. rewrite !length_app. lia.
Qed.

Lemma sum_len_bound (ms : list str) (L : Z) :
  (forall m, In m ms -> (len m <= L)%Z) ->
  (sum_len ms <= len ms * L)%Z.
Proof.
  induction ms as [|m ms IH]; intros H.
  - simpl. unfold len. simpl. lia.
  - cbn [sum_len].
    assert (H1 : (len m <= L)%Z) by (apply H; left; reflexivity).
    assert (H2 : (sum_len ms <= len ms * L)%Z).
    { apply IH. intros m' J. apply H. right; exact J. }
    assert (E : len (m :: ms) = (1 + len ms)%Z).
    { unfold len. change (List.length (m :: ms)) with (S (List.length ms)).
      lia. }
    rewrite E. lia.
Qed.

Lemma matching_keywords_in (normalized : str) (keywords : list str)
    (kw : str) :
  In kw (matching_keywords normalized keywords)
  <-> In kw keywords /\ contains kw normalized = true.
Proof.
  unfold matching_keywords.
  apply (filter_In (fun kw : str => contains kw normalized)).
Qed.

Lemma matching_keywords_nil_inv (normalized : str) (keywords : list str) :
  matching_keywords normalized keywords = [] ->
  forall kw, In kw keywords -> contains kw normalized = false.
Proof.
  intros E kw J. destruct (contains kw normalized) eqn:C; [|reflexivity].
  exfalso. exact (matching_keywords_some _ _ _ J C E).
Qed.

Lemma dict_set_in_inv (V : Type) (k k' : str) (v v' : V) (d : dict V) :
  In (k', v') (dict_set k v d) -> (k' = k /\ v' = v) \/ In (k', v') d.
Proof.
  induction d as [|[k0 v0] d IH]; simpl.
  - intros [H|[]]. injection H as <- <-. left; split; reflexivity.
  - destruct (str_eqb_spec k k0) as [->|N]; simpl.
    + intros [H|H]; [injection H as <- <-; left; split; reflexivity|].
      right; right; exact H.
    + intros [H|H]; [right; left; exact H|].
      destruct (IH H) as [J|J]; [left; exact J | right; right; exact J].
Qed.

(* ------------------------------------------------------------------ *)
(** ** Further properties of construction *)

Section Construction.

Variable lower : str -> str.

Local Abbreviation init := (AccountClassifier_init lower).

Lemma keyword_comprehension_keys (items d : dict (list str)) (code : str) :
  In code
     (keys
        (fold_left
           (fun d (item : str * list str) =>
              let (code, keywords) := item in
              dict_set code (List.map lower keywords) d)
           items d))
  <-> In code (keys d) \/ In code (keys items).
Proof.
  revert d; induction items as [|[c kws] items IH]; intros d; simpl.
  - tauto.
  - rewrite IH. split.
    + intros [H|H]; [|tauto].
      apply dict_set_keys_inv in H. destruct H as [->|H]; tauto.
    + intros [H|[<-|H]].
      * left. apply dict_set_keys_incl; exact H.
      * left. apply dict_set_in_keys.
      * right; exact H.
Qed.

Lemma keyword_comprehension_distinct (items d : dict (list str)) :
  NoDup (keys d ++ keys items) ->
  fold_left
    (fun d (item : str * list str) =>
       let (code, keywords) := item in
       dict_set code (List.map lower keywords) d)
    items d
  = d ++ List.map
           (fun item : str * list str =>
              (fst item, List.map lower (snd item)))
           items.
Proof.
  revert d; induction items as [|[c kws] items IH]; intros d ND; simpl.
  - rewrite app_nil_r; reflexivity.
  - simpl in ND.
    assert (NI : ~ In c (keys d)).
    { apply NoDup_remove_2 in ND. intros J; apply ND.
      apply in_or_app; left; exact J. }
    rewrite (dict_set_absent _ _ _ _ NI), IH.
    + rewrite <- app_assoc. reflexivity.
    + unfold keys in *. rewrite map_app, <- app_assoc. exact ND.
Qed.

Lemma exact_comprehension_in (items d : dict str) (k v : str) :
  In (k, v)
     (fold_left
        (fun d (item : str * str) =>
           let (key, value) := item in dict_set (lower key) value d)
        items d) ->
  In (k, v) d \/ exists key, In (key, v) items /\ k = lower key.
Proof.
  revert d; induction items as [|[key value] items IH]; intros d H;
    simpl in H.
  - left; exact H.
  - destruct (IH _ H) as [J|(key' & J & E)].
    + apply dict_set_in_inv in J. destruct J as [[-> ->]|J].
      * right. exists key. split; [left; reflexivity | reflexivity].
      * left; exact J.
    + right. exists key'. split; [right; exact J | exact E].
Qed.

Lemma exact_comprehension_distinct (items d : dict str) :
  NoDup (keys d ++ List.map (fun item : str * str => lower (fst item)) items) ->
  fold_left
    (fun d (item : str * str) =>
       let (key, value) := item in dict_set (lower key) value d)
    items d
  = d ++ List.map
           (fun item : str * str => (lower (fst item), snd item)) items.
Proof.
  revert d; induction items as [|[key value] items IH]; intros d ND; simpl.
  - rewrite app_nil_r; reflexivity.
  - simpl in ND.
    assert (NI : ~ In (lower key) (keys d)).
    { apply NoDup_remove_2 in ND. intros J; apply ND.
      apply in_or_app; left; exact J. }
    rewrite (dict_set_absent _ _ _ _ NI), IH.
    + rewrite <- app_assoc. reflexivity.
    + unfold keys in *. rewrite map_app, <- app_assoc. exact ND.
Qed.

(** The two comprehensions of [__init__]. *)
Lemma init_fields (km : dict (list str)) (el : option (dict str))
    (eng : AccountClassifier) :
  init km el = inr eng ->
  keyword_map eng
  = fold_left
      (fun d (item : str * list str) =>
         let (code, keywords) := item in
         dict_set code (List.map lower keywords) d)
      km []
  /\ exact_lookup eng
     = fold_left
         (fun d (item : str * str) =>
            let (key, value) := item in dict_set (lower key) value d)
         (or_empty el) [].
Proof.
  unfold AccountClassifier_init.
  destruct (is_empty km); [discriminate|].
  intros H; injection H as <-. split; reflexivity.
Qed.

(** X1: for a keyword mapping with pairwise distinct codes, the engine
    keeps the codes as given and in the given order, and holds for each
    code its keyword list lowercased entry by entry (same length, same
    order, repeated entries kept). *)
Theorem keyword_rules_lowercased
    (km : dict (list str)) (el : option (dict str))
    (eng : AccountClassifier) :
  init km el = inr eng ->
  NoDup (keys km) ->
  keyword_map eng
  = List.map
      (fun item : str * list str => (fst item, List.map lower (snd item)))
      km.
Proof.
  intros I ND. destruct (init_fields km el eng I) as [-> _].
  apply (keyword_comprehension_distinct km []). exact ND.
Qed.

(** X2: the codes of the exact lookup are stored as given: every entry
    of the engine's lookup pairs the lowercased form of a supplied key
    with that key's supplied code.  When the supplied keys stay pairwise
    distinct after lowercasing, the engine's lookup is the supplied one
    with every key lowercased, in the supplied order. *)
Theorem lookup_codes_preserved
    (km : dict (list str)) (el : option (dict str))
    (eng : AccountClassifier) :
  init km el = inr eng ->
  (forall key' value,
      In (key', value) (exact_lookup eng) ->
      exists key, In (key, value) (or_empty el) /\ key' = lower key)
  /\ (NoDup (List.map (fun item : str * str => lower (fst item))
               (or_empty el)) ->
      exact_lookup eng
      = List.map (fun item : str * str => (lower (fst item), snd item))
          (or_empty el)).
Proof.
  intros I. destruct (init_fields km el eng I) as [_ ->]. split.
  - intros key' value H.
    destruct (exact_comprehension_in _ _ _ _ H) as [[]|G]. exact G.
  - intros ND. apply (exact_comprehension_distinct (or_empty el) []).
    exact ND.
Qed.

(** X4: whatever is supplied, a constructed engine has at least one
    code, pairwise distinct codes, pairwise distinct exact-lookup keys,
    and exactly the supplied codes. *)
Theorem construction_invariants
    (km : dict (list str)) (el : option (dict str))
    (eng : AccountClassifier) :
  init km el = inr eng ->
  keyword_map eng <> []
  /\ NoDup (keys (keyword_map eng))
  /\ NoDup (keys (exact_lookup eng))
  /\ (forall code, In code (keys (keyword_map eng)) <-> In code (keys km)).
Proof.
  intros I. destruct (init_fields km el eng I) as [K E].
  destruct (init_inr lower km el eng I) as (NE & ND & _).
  assert (S : forall code,
             In code (keys (keyword_map eng)) <-> In code (keys km)).
  { intros code. rewrite K, keyword_comprehension_keys. simpl. tauto. }
  split; [|split; [exact ND | split; [|exact S]]].
  - intros Z. destruct km as [|[c kws] km]; [congruence|].
    assert (J : In c (keys (keyword_map eng))).
    { apply S. left. reflexivity. }
    rewrite Z in J. exact J.
  - rewrite E. apply exact_comprehension_nodup. constructor.
Qed.

End Construction.

(* ------------------------------------------------------------------ *)
(** ** Further properties of classification *)

Section Classification.

Variable lower : str -> str.
Variable isspace : char -> bool.

Local Abbreviation init := (AccountClassifier_init lower).
Local Abbreviation normalize :=
  (fun text : str => strip isspace (lower text)).
Local Abbreviation run := (classify lower isspace).

(** The last supplied entry of a lowercased key is the one looked up. *)
Lemma lookup_last_entry (pre post : dict str) (key value : str) :
  (forall key' value', In (key', value') post -> lower key' <> lower key) ->
  dict_get (lower key)
    (fold_left
       (fun d (item : str * str) =>
          let (key, value) := item in dict_set (lower key) value d)
       (pre ++ (key, value) :: post) [])
  = Some value.
Proof.
  intros L. rewrite exact_comprehension_get.
  rewrite map_app, rev_app_distr. cbn [List.map rev fst snd].
  rewrite <- app_assoc, dict_get_app.
  assert (G : dict_get (lower key)
                (rev (List.map
                        (fun item : str * str =>
                           (lower (fst item), snd item)) post)) = None).
  { apply dict_get_none. unfold keys. rewrite map_rev, map_map.
    intros J. apply in_rev in J. apply in_map_iff in J.
    destruct J as ([key' value'] & Ek & J). simpl in Ek.
    exact (L key' value' J Ek). }
  rewrite G. simpl. rewrite str_eqb_refl. reflexivity.
Qed.



(** Where a returned code comes from, in terms of the engine. *)
Lemma returned_code_sources (self : AccountClassifier) (text : str) :
  NoDup (keys (keyword_map self)) ->
  normalize text <> [] ->
  exists r,
    run text self = (self, inr r)
    /\ (In (subject_code r) (keys (keyword_map self))
        \/ (exists key, In (key, subject_code r) (exact_lookup self))
        \/ subject_code r = str_of "UNCLASSIFIED").
Proof.
  intros ND NE.
  destruct (classify_cases lower isspace self text ND NE)
    as [(subject & G & R) | [(_ & _ & R) | (_ & W)]].
  - eexists. split; [exact R|]. right. left. cbn [subject_code].
    eexists. exact (dict_get_in _ _ _ _ G).
  - eexists. split; [exact R|]. right. right. reflexivity.
  - destruct W as (pre & code & keywords & post & D & _ & R & _).
    eexists. split; [exact R|]. left. cbn [subject_code].
    rewrite D. unfold keys. rewrite map_app. apply in_or_app.
    right. left. reflexivity.
Qed.

(** X5: [classify] never invents a code: on valid text the returned
    subject_code is one of the supplied codes of the keyword mapping, a
    code supplied in the exact lookup, or ["UNCLASSIFIED"]. *)
Theorem subject_code_is_configured
    (km : dict (list str)) (el : option (dict str))
    (eng : AccountClassifier) (text : str) :
  init km el = inr eng ->
  normalize text <> [] ->
  exists r,
    run text eng = (eng, inr r)
    /\ (In (subject_code r) (keys km)
        \/ In (subject_code r) (List.map snd (or_empty el))
        \/ subject_code r = str_of "UNCLASSIFIED").
Proof.
  intros I NE.
  destruct (init_inr lower km el eng I) as (_ & ND & _).
  destruct (init_fields lower km el eng I) as [K E].
  destruct (returned_code_sources eng text ND NE)
    as (r & R & [J | [(key' & J) | U]]).
  - exists r. split; [exact R|]. left.
    rewrite K in J. apply keyword_comprehension_keys in J.
    destruct J as [[]|J]. exact J.
  - exists r. split; [exact R|]. right. left.
    rewrite E in J.
    destruct (exact_comprehension_in lower _ _ _ _ J) as [[]|(key & S & _)].
    apply (in_map snd) in S. exact S.
  - exists r. split; [exact R|]. right. right. exact U.
Qed.

(** X6: every returned matched keyword occurs in the normalized text as
    a contiguous substring. *)
Theorem matched_keywords_occur
    (km : dict (list str)) (el : option (dict str))
    (eng : AccountClassifier) (text : str) :
  init km el = inr eng ->
  normalize text <> [] ->
  exists r,
    run text eng = (eng, inr r)
    /\ forall kw,
        In kw (matched_keywords r) ->
        exists a b, normalize text = a ++ kw ++ b.
Proof.
  intros I NE.
  destruct (init_inr lower km el eng I) as (_ & ND & _).
  destruct (classify_cases lower isspace eng text ND NE)
    as [(subject & _ & R) | [(_ & _ & R) | (_ & W)]].
  - eexists. split; [exact R|]. cbn [matched_keywords].
    intros kw [<-|[]]. exists [], []. rewrite app_nil_r. reflexivity.
  - eexists. split; [exact R|]. intros kw [].
  - destruct W as (pre & code & keywords & post & _ & _ & R & _).
    eexists. split; [exact R|]. cbn [matched_keywords].
    intros kw J. apply matching_keywords_in in J.
    apply contains_spec. exact (proj2 J).
Qed.

(** X7: on valid text the fallback result (["UNCLASSIFIED"], 0.0, no
    keyword) is returned exactly when the normalized text is no key of
    the exact lookup and contains none of the engine's keywords. *)
Theorem unclassified_iff_nothing_matches
    (km : dict (list str)) (el : option (dict str))
    (eng : AccountClassifier) (text : str) :
  init km el = inr eng ->
  normalize text <> [] ->
  run text eng = (eng, inr (mkResult (str_of "UNCLASSIFIED") 0.0 []))
  <-> (~ In (normalize text) (keys (exact_lookup eng))
       /\ forall code keywords kw,
           In (code, keywords) (keyword_map eng) ->
           In kw keywords ->
           contains kw (normalize text) = false).
Proof.
  intros I NE.
  destruct (init_inr lower km el eng I) as (_ & ND & _).
  destruct (classify_cases lower isspace eng text ND NE)
    as [(subject & G & R) | [(G & A & R) | (G & W)]].
  - split.
    + intros H. rewrite R in H. discriminate.
    + intros [NK _]. apply dict_get_none in NK. cbv beta in G. congruence.
  - split; [|intros _; exact R].
    intros _. split; [apply dict_get_none; exact G|].
    intros code keywords kw J. apply matching_keywords_nil_inv.
    exact (A code keywords J).
  - destruct W as (pre & code & keywords & post & D & M & R & _).
    split.
    + intros H. rewrite R in H. injection H as _ _ H.
      exfalso. exact (M H).
    + intros [_ NM]. exfalso. apply M. apply matching_keywords_none.
      intros kw J. apply (NM code keywords kw); [|exact J].
      rewrite D. apply in_or_app. right. left. reflexivity.
Qed.

End Classification.

Section Configured.

Variable lower : str -> str.
Variable isspace : char -> bool.

Local Abbreviation init := (AccountClassifier_init lower).
Local Abbreviation normalize :=
  (fun text : str => strip isspace (lower text)).
Local Abbreviation run := (classify lower isspace).

(** X12: a supplied exact-lookup key classifies to its own code: when
    the lowercased key is not empty, has no outer whitespace, and no later
    supplied key has the same lowercased form, [classify] of the key as
    supplied returns the key's code with confidence 1.0. *)
Theorem configured_key_round_trip
    (km : dict (list str)) (el : option (dict str))
    (eng : AccountClassifier) (pre post : dict str) (key value : str) :
  init km el = inr eng ->
  or_empty el = pre ++ (key, value) :: post ->
  (forall key' value', In (key', value') post -> lower key' <> lower key) ->
  lower key <> [] ->
  outer_space isspace (lower key) = false ->
  run key eng = (eng, inr (mkResult value 1.0 [lower key])).
Proof.
  intros I D L NE O.
  destruct (init_inr lower km el eng I) as (_ & _ & E).
  pose proof (strip_id isspace (lower key) O) as S.
  rewrite <- S. apply classify_exact; [cbv beta; congruence|].
  cbv beta. rewrite S, E, D. apply lookup_last_entry. exact L.
Qed.

(** X13: [create_default_classifier] never fails, whatever the runtime's
    lowercasing; its engine rejects blank text and otherwise returns one
    of the six codes of the built-in table or ["UNCLASSIFIED"]. *)
Theorem default_classifier_codes (text : str) :
  exists eng,
    create_default_classifier_with lower = inr eng
    /\ ((normalize text = [] /\ run text eng = (eng, inl InvalidInput))
        \/ exists r,
            run text eng = (eng, inr r)
            /\ In (subject_code r)
                 [str_of "411"; str_of "521"; str_of "611"; str_of "622";
                  str_of "631"; str_of "701"; str_of "UNCLASSIFIED"]).
Proof.
  unfold create_default_classifier_with.
  destruct (init DEFAULT_KEYWORDS
              (Some [ ([106; 114; 26481; 26085; 26412]%N, str_of "611");
                      (str_of "ntt", str_of "622") ]))
    as [e|eng] eqn:I.
  { unfold AccountClassifier_init, DEFAULT_KEYWORDS in I.
    cbn [is_empty] in I. discriminate I. }
  exists eng. split; [reflexivity|].
  destruct (strip isspace (lower text)) as [|c n] eqn:N.
  - left. split; [reflexivity|]. apply classify_empty. exact N.
  - right.
    destruct (init_inr lower _ _ eng I) as (_ & ND & _).
    destruct (init_fields lower _ _ eng I) as [K E].
    destruct (returned_code_sources lower isspace eng text ND)
      as (r & R & [J | [(key' & J) | U]]).
    { cbv beta. rewrite N. discriminate. }
    + exists r. split; [exact R|].
      rewrite K in J. apply keyword_comprehension_keys in J.
      destruct J as [[]|J].
      unfold keys, DEFAULT_KEYWORDS in J. cbn [List.map fst In] in J.
      cbn [In]. intuition.
    + exists r. split; [exact R|].
      rewrite E in J.
      destruct (exact_comprehension_in lower _ _ _ _ J)
        as [[]|(key & S & _)].
      cbn [or_empty is_empty In] in S. cbn [In].
      destruct S as [S|[S|[]]]; injection S as _ <-; intuition.
    + exists r. split; [exact R|]. rewrite U. cbn [In]. intuition.
Qed.

End Configured.

Section Order.

Variable lower : str -> str.
Variable isspace : char -> bool.

Local Abbreviation init := (AccountClassifier_init lower).
Local Abbreviation normalize :=
  (fun text : str => strip isspace (lower text)).
Local Abbreviation run := (classify lower isspace).



End Order.

(* ------------------------------------------------------------------ *)
(** ** The further properties at concrete inputs *)

Example swapped_engine_init :
  AccountClassifier_init lower_basic swapped_rules (Some sample_lookup)
  = inr swapped_engine.
Proof. reflexivity. Qed.

Example empty_keyword_engine_init :
  AccountClassifier_init lower_basic empty_keyword_rules None
  = inr empty_keyword_engine.
Proof. reflexivity. Qed.

Lemma keyword_rules_lowercased_witness :
  keyword_map case_engine
  = List.map
      (fun item : str * list str =>
         (fst item, List.map lower_basic (snd item)))
      case_rules.
Proof.
  apply (keyword_rules_lowercased lower_basic case_rules None case_engine).
  - reflexivity.
  - distinct_keys.
Defined.

Lemma lookup_codes_preserved_witness :
  exact_lookup sample_engine
  = List.map (fun item : str * str => (lower_basic (fst item), snd item))
      (or_empty (Some sample_lookup)).
Proof.
  apply (lookup_codes_preserved lower_basic
           sample_rules (Some sample_lookup) sample_engine).
  - reflexivity.
  - distinct_keys.
Defined.


Lemma construction_invariants_witness :
  keyword_map sample_engine <> []
  /\ NoDup (keys (keyword_map sample_engine))
  /\ NoDup (keys (exact_lookup sample_engine))
  /\ (forall code,
         In code (keys (keyword_map sample_engine))
         <-> In code (keys sample_rules)).
Proof.
  apply (construction_invariants lower_basic
           sample_rules (Some sample_lookup) sample_engine).
  reflexivity.
Defined.

Lemma subject_code_is_configured_witness :
  exists r,
    classify lower_basic isspace_basic (str_of "taxi wifi") sample_engine
    = (sample_engine, inr r)
    /\ (In (subject_code r) (keys sample_rules)
        \/ In (subject_code r) (List.map snd (or_empty (Some sample_lookup)))
        \/ subject_code r = str_of "UNCLASSIFIED").
Proof.
  apply (subject_code_is_configured lower_basic isspace_basic
           sample_rules (Some sample_lookup) sample_engine
           (str_of "taxi wifi")).
  - reflexivity.
  - vm_compute. discriminate.
Defined.

Lemma matched_keywords_occur_witness :
  exists r,
    classify lower_basic isspace_basic (str_of "Taxi WiFi") sample_engine
    = (sample_engine, inr r)
    /\ forall kw,
        In kw (matched_keywords r) ->
        exists a b,
          strip isspace_basic (lower_basic (str_of "Taxi WiFi"))
          = a ++ kw ++ b.
Proof.
  apply (matched_keywords_occur lower_basic isspace_basic
           sample_rules (Some sample_lookup) sample_engine
           (str_of "Taxi WiFi")).
  - reflexivity.
  - vm_compute. discriminate.
Defined.

Lemma unclassified_witness :
  classify lower_basic isspace_basic (str_of "hello") sample_engine
  = (sample_engine, inr (mkResult (str_of "UNCLASSIFIED") 0.0 [])).
Proof.
  apply (unclassified_iff_nothing_matches lower_basic isspace_basic
           sample_rules (Some sample_lookup) sample_engine (str_of "hello")).
  - reflexivity.
  - vm_compute. discriminate.
  - split.
    + vm_compute. intros [H|[]]. discriminate.
    + intros code keywords kw [H|[H|[]]]; injection H as <- <-;
        (intros [<-|[<-|[]]]; reflexivity).
Defined.


Lemma configured_key_witness :
  classify lower_basic isspace_basic (str_of "NTT") sample_engine
  = (sample_engine, inr (mkResult (str_of "622") 1.0 [str_of "ntt"])).
Proof.
  apply (configured_key_round_trip lower_basic isspace_basic
           sample_rules (Some sample_lookup) sample_engine
           [] [] (str_of "NTT") (str_of "622")).
  - reflexivity.
  - reflexivity.
  - intros key' value' [].
  - vm_compute. discriminate.
  - reflexivity.
Defined.

(* ------------------------------------------------------------------ *)
(** ** Binary64: rounding and magnitudes *)

Section Binary64.

Local Open Scope Z_scope.

Lemma digits2_pos_bounds (p : positive) :
  2 ^ (Zpos (digits2_pos p) - 1) <= Zpos p < 2 ^ Zpos (digits2_pos p).
Proof.
  induction p as [p IH|p IH|]; cbn [digits2_pos].
  - rewrite Pos2Z.inj_succ.
    replace (Z.succ (Zpos (digits2_pos p)) - 1) with (Z.succ (Zpos (digits2_pos p) - 1)) by lia.
    rewrite !Z.pow_succ_r by lia. lia.
  - rewrite Pos2Z.inj_succ.
    replace (Z.succ (Zpos (digits2_pos p)) - 1) with (Z.succ (Zpos (digits2_pos p) - 1)) by lia.
    rewrite !Z.pow_succ_r by lia. lia.
  - simpl. lia.
Qed.

Lemma digits2_pos_unique (p : positive) (d : Z) :
  2 ^ (d - 1) <= Zpos p < 2 ^ d -> Zpos (digits2_pos p) = d.
Proof.
  intros [L U]. pose proof (digits2_pos_bounds p) as [L' U'].
  destruct (Z.lt_trichotomy (Zpos (digits2_pos p)) d) as [H|[H|H]]; [|exact H|].
  - exfalso.
    assert (2 ^ Zpos (digits2_pos p) <= 2 ^ (d - 1)) by (apply Z.pow_le_mono_r; lia).
    lia.
  - exfalso.
    assert (0 <= d).
    { destruct (Z.le_gt_cases 0 d); [assumption|].
      rewrite (Z.pow_neg_r 2 d) in U by lia. lia. }
    assert (2 ^ d <= 2 ^ (Zpos (digits2_pos p) - 1)) by (apply Z.pow_le_mono_r; lia).
    lia.
Qed.

Lemma shr_1_m (mrs : shr_record) :
  0 <= shr_m mrs -> shr_m (shr_1 mrs) = shr_m mrs / 2.
Proof.
  destruct mrs as [m r s]. cbn [shr_m]. intros H.
  rewrite <- Z.div2_div.
  destruct m as [|[p|p|]|p]; try reflexivity. lia.
Qed.

Lemma iter_shr_1_m (p : positive) :
  forall mrs, 0 <= shr_m mrs ->
    shr_m (iter_pos shr_1 p mrs) = shr_m mrs / 2 ^ Zpos p.
Proof.
  induction p as [p IH|p IH|]; intros mrs H; cbn [iter_pos].
  - assert (H1 : 0 <= shr_m (shr_1 mrs)).
    { rewrite shr_1_m by exact H. apply Z.div_pos; lia. }
    assert (H2 : 0 <= shr_m (iter_pos shr_1 p (shr_1 mrs))).
    { rewrite IH by exact H1. apply Z.div_pos; [lia|]. apply Z.pow_pos_nonneg; lia. }
    rewrite IH by exact H2. rewrite IH by exact H1. rewrite shr_1_m by exact H.
    rewrite !Z.div_div by (try lia; apply Z.pow_pos_nonneg; lia).
    f_equal. rewrite Pos2Z.inj_xI.
    replace (2 * Zpos p + 1) with (Z.succ (Zpos p + Zpos p)) by lia.
    rewrite Z.pow_succ_r, Z.pow_add_r by lia. lia.
  - assert (H2 : 0 <= shr_m (iter_pos shr_1 p mrs)).
    { rewrite IH by exact H. apply Z.div_pos; [lia|]. apply Z.pow_pos_nonneg; lia. }
    rewrite IH by exact H2. rewrite IH by exact H.
    rewrite !Z.div_div by (try lia; apply Z.pow_pos_nonneg; lia).
    f_equal. rewrite <- Z.pow_add_r by lia. f_equal. lia.
  - rewrite shr_1_m by exact H. reflexivity.
Qed.

Lemma fexp64 (e : Z) : fexp prec emax e = Z.max (e - 53) (-1074).
Proof. reflexivity. Qed.

Lemma shr_record_of_loc_m (m : Z) (l : location) :
  shr_m (shr_record_of_loc m l) = m.
Proof. destruct l as [|[| |]]; reflexivity. Qed.

Lemma div_pow_bounds (m d k : Z) :
  0 <= k <= d - 1 -> 2 ^ (d - 1) <= m < 2 ^ d ->
  2 ^ (d - 1 - k) <= m / 2 ^ k < 2 ^ (d - k).
Proof.
  intros K [L U].
  assert (P : 0 < 2 ^ k) by (apply Z.pow_pos_nonneg; lia).
  split.
  - apply Z.div_le_lower_bound; [exact P|].
    rewrite <- Z.pow_add_r by lia. replace (k + (d - 1 - k)) with (d - 1) by lia.
    exact L.
  - apply Z.div_lt_upper_bound; [exact P|].
    rewrite <- Z.pow_add_r by lia. replace (k + (d - k)) with d by lia.
    exact U.
Qed.

Lemma shr_fexp_normal (p : positive) (e : Z) (l : location) :
  53 <= Zpos (digits2_pos p) ->
  -1021 <= Zpos (digits2_pos p) + e ->
  exists mrs,
    shr_fexp prec emax (Zpos p) e l = (mrs, Zpos (digits2_pos p) + e - 53)
    /\ shr_m mrs = Zpos p / 2 ^ (Zpos (digits2_pos p) - 53).
Proof.
  intros D M. unfold shr_fexp. cbn [Zdigits2]. rewrite fexp64.
  rewrite Z.max_l by lia.
  replace (Zpos (digits2_pos p) + e - 53 - e) with (Zpos (digits2_pos p) - 53) by lia.
  unfold shr.
  destruct (Zpos (digits2_pos p) - 53) as [|q|q] eqn:Q.
  - eexists. split.
    + f_equal. lia.
    + rewrite shr_record_of_loc_m. rewrite Z.pow_0_r, Z.div_1_r. reflexivity.
  - eexists. split.
    + f_equal. lia.
    + rewrite iter_shr_1_m.
      * rewrite shr_record_of_loc_m. reflexivity.
      * rewrite shr_record_of_loc_m. lia.
  - lia.
Qed.

Lemma round_nearest_even_cases (m : Z) (l : location) :
  round_nearest_even m l = m \/ round_nearest_even m l = m + 1.
Proof.
  destruct l as [|[| |]]; simpl; auto.
  destruct (Z.even m); auto.
Qed.

(** Rounding a positive mantissa of at least 53 digits in the normal
    range.  The result is finite and positive with a 53-digit mantissa; it
    is the mantissa truncated to 53 digits or that plus one, and when that
    plus one is 2^53 the exponent is one more. *)
Lemma round_aux_strong (p : positive) (e : Z) (l : location) :
  53 <= Zpos (digits2_pos p) ->
  -1021 <= Zpos (digits2_pos p) + e ->
  Zpos (digits2_pos p) + e <= 1023 ->
  exists m' e',
    binary_round_aux prec emax false (Zpos p) e l = S754_finite false m' e'
    /\ Zpos (digits2_pos m') = 53
    /\ ((e' = Zpos (digits2_pos p) + e - 53
         /\ Zpos p / 2 ^ (Zpos (digits2_pos p) - 53) <= Zpos m'
            <= Zpos p / 2 ^ (Zpos (digits2_pos p) - 53) + 1)
        \/ (e' = Zpos (digits2_pos p) + e - 53 + 1
            /\ Zpos m' = 2 ^ 52
            /\ Zpos p / 2 ^ (Zpos (digits2_pos p) - 53) + 1 = 2 ^ 53)).
Proof.
  intros D Lo Hi. set (d := Zpos (digits2_pos p)) in *.
  destruct (shr_fexp_normal p e l D Lo) as (mrs1 & E1 & M1).
  fold d in E1, M1.
  unfold binary_round_aux. rewrite E1.
  assert (B1 : 2 ^ 52 <= shr_m mrs1 < 2 ^ 53).
  { rewrite M1.
    pose proof (div_pow_bounds (Zpos p) d (d - 53)) as H.
    replace (d - 1 - (d - 53)) with 52 in H by lia.
    replace (d - (d - 53)) with 53 in H by lia.
    apply H; [lia|]. apply digits2_pos_bounds. }
  set (m2 := round_nearest_even (shr_m mrs1) (loc_of_shr_record mrs1)).
  assert (C2 : m2 = shr_m mrs1 \/ m2 = shr_m mrs1 + 1)
    by apply round_nearest_even_cases.
  assert (B2 : 2 ^ 52 <= m2 <= 2 ^ 53) by (destruct C2 as [-> | ->]; lia).
  assert (P52 : 0 < 2 ^ 52) by (apply Z.pow_pos_nonneg; lia).
  assert (E53 : 2 ^ 53 = 2 * 2 ^ 52) by reflexivity.
  destruct m2 as [|p2|p2] eqn:E2; [lia| |lia].
  set (d2 := Zpos (digits2_pos p2)).
  destruct (Z.eq_dec (Zpos p2) (2 ^ 53)) as [T|T].
  - (* the carry: the rounded mantissa is 2^53 *)
    assert (D2 : d2 = 54).
    { apply digits2_pos_unique. rewrite T.
      replace (54 - 1) with 53 by lia. split; [lia|].
      apply Z.pow_lt_mono_r; lia. }
    destruct (shr_fexp_normal p2 (d + e - 53) loc_Exact) as (mrs2 & E3 & M3).
    { fold d2. lia. }
    { fold d2. lia. }
    fold d2 in E3, M3. rewrite E3, D2 in *.
    assert (V3 : shr_m mrs2 = 2 ^ 52).
    { rewrite M3, T. replace (54 - 53) with 1 by lia.
      rewrite E53, Z.pow_1_r, Z.mul_comm, Z.div_mul by lia. reflexivity. }
    destruct (shr_m mrs2) as [|p3|p3] eqn:E4; [lia| |lia].
    change (Z.sub emax prec) with 971.
    rewrite (proj2 (Z.leb_le _ _)) by lia.
    exists p3, (54 + (d + e - 53) - 53). split; [reflexivity|]. split.
    + apply digits2_pos_unique. rewrite V3.
      replace (53 - 1) with 52 by lia. lia.
    + right. split; [lia|]. split; [exact V3|].
      rewrite <- M1. destruct C2 as [C2|C2]; lia.
  - assert (D2 : d2 = 53).
    { apply digits2_pos_unique. replace (53 - 1) with 52 by lia. lia. }
    destruct (shr_fexp_normal p2 (d + e - 53) loc_Exact) as (mrs2 & E3 & M3).
    { fold d2. lia. }
    { fold d2. lia. }
    fold d2 in E3, M3. rewrite E3, D2 in *.
    assert (V3 : shr_m mrs2 = Zpos p2).
    { rewrite M3. replace (53 - 53) with 0 by lia.
      rewrite Z.pow_0_r, Z.div_1_r. reflexivity. }
    rewrite V3.
    change (Z.sub emax prec) with 971.
    rewrite (proj2 (Z.leb_le _ _)) by lia.
    exists p2, (53 + (d + e - 53) - 53). split; [reflexivity|].
    split; [exact D2|].
    left. split; [lia|]. rewrite <- M1. destruct C2 as [C2|C2]; lia.
Qed.

(** In particular the binary order of magnitude of the result is that of
    the input or one more. *)
Lemma round_aux_normal (p : positive) (e : Z) (l : location) :
  53 <= Zpos (digits2_pos p) ->
  -1021 <= Zpos (digits2_pos p) + e ->
  Zpos (digits2_pos p) + e <= 1023 ->
  exists m' e',
    binary_round_aux prec emax false (Zpos p) e l = S754_finite false m' e'
    /\ Zpos (digits2_pos m') = 53
    /\ Zpos (digits2_pos p) + e <= 53 + e' <= Zpos (digits2_pos p) + e + 1.
Proof.
  intros D Lo Hi.
  destruct (round_aux_strong p e l D Lo Hi) as (m' & e' & E & D' & C).
  exists m', e'. split; [exact E|]. split; [exact D'|].
  destruct C as [[-> _] | [-> _]]; lia.
Qed.

Lemma sf_in_inv (lo hi : Z) (x : spec_float) :
  sf_in lo hi x ->
  exists m e, x = S754_finite false m e
              /\ 2 ^ 52 <= Zpos m < 2 ^ 53 /\ lo <= 53 + e <= hi.
Proof.
  destruct x as [s|s| |[|] m e]; cbn [sf_in]; try tauto.
  intros [D B]. exists m, e. split; [reflexivity|]. split; [|exact B].
  pose proof (digits2_pos_bounds m) as H. rewrite D in H.
  replace (53 - 1) with 52 in H by lia. exact H.
Qed.

Lemma sf_in_weaken (lo hi lo' hi' : Z) (x : spec_float) :
  sf_in lo hi x -> lo' <= lo -> hi <= hi' -> sf_in lo' hi' x.
Proof.
  destruct x as [s|s| |[|] m e]; cbn [sf_in]; try tauto. intros [D B] ? ?.
  split; [exact D | lia].
Qed.

Lemma round_aux_in (p : positive) (e : Z) (l : location) (lo hi : Z) :
  53 <= Zpos (digits2_pos p) ->
  -1021 <= lo -> hi <= 1024 ->
  lo <= Zpos (digits2_pos p) + e -> Zpos (digits2_pos p) + e + 1 <= hi ->
  sf_in lo hi (binary_round_aux prec emax false (Zpos p) e l).
Proof.
  intros D L H A B.
  destruct (round_aux_normal p e l D) as (m' & e' & -> & D' & R); try lia.
  cbn [sf_in]. split; [exact D' | lia].
Qed.

Lemma mul_in (x y : spec_float) (a b c d : Z) :
  sf_in a b x -> sf_in c d y ->
  -1021 <= a + c - 1 -> b + d + 1 <= 1024 ->
  sf_in (a + c - 1) (b + d + 1) (SF64mul x y).
Proof.
  intros X Y Lo Hi.
  destruct (sf_in_inv _ _ _ X) as (mx & ex & -> & BX & RX).
  destruct (sf_in_inv _ _ _ Y) as (my & ey & -> & BY & RY).
  unfold SF64mul, SFmul. cbn [xorb].
  assert (BP : 2 ^ 104 <= Zpos (mx * my) < 2 ^ 106).
  { rewrite Pos2Z.inj_mul.
    change (2 ^ 104) with (2 ^ 52 * 2 ^ 52).
    change (2 ^ 106) with (2 ^ 53 * 2 ^ 53).
    assert (0 < 2 ^ 52) by (apply Z.pow_pos_nonneg; lia). nia. }
  assert (DP : Zpos (digits2_pos (mx * my)) = 105
               \/ Zpos (digits2_pos (mx * my)) = 106).
  { destruct (Z.lt_ge_cases (Zpos (mx * my)) (2 ^ 105)) as [T|T].
    - left. apply digits2_pos_unique. replace (105 - 1) with 104 by lia. lia.
    - right. apply digits2_pos_unique. replace (106 - 1) with 105 by lia. lia. }
  apply round_aux_in; lia.
Qed.

Lemma iter_xO (d m : positive) :
  Zpos (Pos.iter xO m d) = Zpos m * 2 ^ Zpos d.
Proof.
  induction d as [|d IH] using Pos.peano_ind.
  - simpl. lia.
  - rewrite Pos.iter_succ, Pos2Z.inj_xO, IH, Pos2Z.inj_succ, Z.pow_succ_r by lia.
    lia.
Qed.

Lemma shl_align_ge (m : positive) (e e' : Z) :
  e <= e' -> shl_align m e e' = (m, e).
Proof.
  intros H. unfold shl_align.
  destruct (Z.sub e' e) eqn:E; try reflexivity. lia.
Qed.

Lemma shl_align_lt (m : positive) (e e' : Z) :
  e' < e ->
  exists m', shl_align m e e' = (m', e') /\ Zpos m' = Zpos m * 2 ^ (e - e').
Proof.
  intros H. unfold shl_align.
  destruct (Z.sub e' e) as [|q|q] eqn:E; try lia.
  eexists. split; [reflexivity|]. rewrite iter_xO. f_equal. f_equal. lia.
Qed.

Lemma shl_align_fst (m : positive) (e e' : Z) :
  e' <= e -> Zpos (fst (shl_align m e e')) = Zpos m * 2 ^ (e - e').
Proof.
  intros H. destruct (Z.eq_dec e e') as [->|N].
  - rewrite shl_align_ge by lia. cbn [fst]. rewrite Z.sub_diag, Z.pow_0_r. lia.
  - destruct (shl_align_lt m e e') as (m' & -> & E); [lia|]. exact E.
Qed.

Lemma binary_round_in (p : positive) (e : Z) (lo hi : Z) :
  53 <= Zpos (digits2_pos p) ->
  -1021 <= lo -> hi <= 1024 ->
  lo <= Zpos (digits2_pos p) + e -> Zpos (digits2_pos p) + e + 1 <= hi ->
  sf_in lo hi (binary_round prec emax false p e).
Proof.
  intros D L H A B. unfold binary_round. rewrite fexp64.
  rewrite shl_align_ge by lia.
  apply round_aux_in; assumption.
Qed.

Lemma add_in (x y : spec_float) (a b c d : Z) :
  sf_in a b x -> sf_in c d y ->
  -1021 <= Z.max a c -> Z.max b d + 2 <= 1024 ->
  sf_in (Z.max a c) (Z.max b d + 2) (SF64add x y).
Proof.
  intros X Y Lo Hi.
  destruct (sf_in_inv _ _ _ X) as (mx & ex & -> & BX & RX).
  destruct (sf_in_inv _ _ _ Y) as (my & ey & -> & BY & RY).
  unfold SF64add, SFadd. cbn [cond_Zopp].
  set (ez := Z.min ex ey).
  rewrite !shl_align_fst by (unfold ez; lia).
  assert (P52 : 0 < 2 ^ 52) by (apply Z.pow_pos_nonneg; lia).
  assert (E53 : 2 ^ 53 = 2 * 2 ^ 52) by reflexivity.
  assert (PX : 0 < 2 ^ (ex - ez)) by (apply Z.pow_pos_nonneg; unfold ez; lia).
  assert (PY : 0 < 2 ^ (ey - ez)) by (apply Z.pow_pos_nonneg; unfold ez; lia).
  set (K := Z.max ex ey - ez).
  assert (PK : 0 < 2 ^ K) by (apply Z.pow_pos_nonneg; unfold K, ez; lia).
  assert (S : 2 ^ 52 * 2 ^ K
              <= Zpos mx * 2 ^ (ex - ez) + Zpos my * 2 ^ (ey - ez)
              < 2 ^ 54 * 2 ^ K).
  { change (2 ^ 54) with (4 * 2 ^ 52).
    destruct (Z.le_ge_cases ex ey) as [T|T].
    - assert (ex - ez = 0) by (unfold ez; lia).
      assert (ey - ez = K) by (unfold K, ez; lia).
      replace (ex - ez) with 0 in * by lia.
      replace (ey - ez) with K in * by lia.
      rewrite Z.pow_0_r. nia.
    - assert (ey - ez = 0) by (unfold ez; lia).
      assert (ex - ez = K) by (unfold K, ez; lia).
      replace (ey - ez) with 0 in * by lia.
      replace (ex - ez) with K in * by lia.
      rewrite Z.pow_0_r. nia. }
  assert (K0 : 0 <= K) by (unfold K, ez; lia).
  rewrite <- !Z.pow_add_r in S by lia.
  destruct (Zpos mx * 2 ^ (ex - ez) + Zpos my * 2 ^ (ey - ez)) as [|s|s] eqn:E;
    [exfalso; assert (0 < 2 ^ (52 + K)) by (apply Z.pow_pos_nonneg; lia); lia
    | | exfalso; assert (0 < 2 ^ (52 + K)) by (apply Z.pow_pos_nonneg; lia); lia].
  cbn [binary_normalize].
  assert (DS : Zpos (digits2_pos s) = 53 + K \/ Zpos (digits2_pos s) = 54 + K).
  { destruct (Z.lt_ge_cases (Zpos s) (2 ^ (53 + K))) as [T|T].
    - left. apply digits2_pos_unique.
      replace (53 + K - 1) with (52 + K) by lia. lia.
    - right. apply digits2_pos_unique.
      replace (54 + K - 1) with (53 + K) by lia. lia. }
  assert (MX : 53 + K + ez = Z.max (53 + ex) (53 + ey)) by (unfold K; lia).
  apply binary_round_in; lia.
Qed.

Lemma add_zero_r (x : spec_float) (lo hi : Z) :
  sf_in lo hi x -> SF64add x (S754_zero false) = x.
Proof.
  destruct x as [s|s| |[|] m e]; cbn [sf_in]; tauto.
Qed.

Lemma div_in (x y : spec_float) (a b c d : Z) :
  sf_in a b x -> sf_in c d y ->
  -1021 <= a - d -> b - c + 2 <= 1024 ->
  sf_in (a - d) (b - c + 2) (SF64div x y).
Proof.
  intros X Y Lo Hi.
  destruct (sf_in_inv _ _ _ X) as (mx & ex & -> & BX & RX).
  destruct (sf_in_inv _ _ _ Y) as (my & ey & -> & BY & RY).
  assert (DX : Zpos (digits2_pos mx) = 53)
    by (apply digits2_pos_unique; replace (53 - 1) with 52 by lia; exact BX).
  assert (DY : Zpos (digits2_pos my) = 53)
    by (apply digits2_pos_unique; replace (53 - 1) with 52 by lia; exact BY).
  unfold SF64div, SFdiv. cbn [xorb].
  unfold SFdiv_core_binary. cbn [Zdigits2]. rewrite DX, DY, fexp64.
  replace (53 + ex - (53 + ey)) with (ex - ey) by lia.
  rewrite Z.max_l by lia.
  rewrite Z.min_l by lia.
  replace (ex - ey - (ex - ey - 53)) with 53 by lia.
  cbv beta iota zeta.
  rewrite Z.shiftl_mul_pow2 by lia.
  destruct (Z.div_eucl (Zpos mx * 2 ^ 53) (Zpos my)) as [q r] eqn:E.
  assert (Q : q = Zpos mx * 2 ^ 53 / Zpos my).
  { unfold Z.div. rewrite E. reflexivity. }
  assert (P52 : 0 < 2 ^ 52) by (apply Z.pow_pos_nonneg; lia).
  assert (E53 : 2 ^ 53 = 2 * 2 ^ 52) by reflexivity.
  assert (E54 : 2 ^ 54 = 4 * 2 ^ 52) by reflexivity.
  assert (BQ : 2 ^ 52 <= q < 2 ^ 54).
  { rewrite Q. split.
    - apply Z.div_le_lower_bound; [lia | nia].
    - apply Z.div_lt_upper_bound; [lia | nia]. }
  destruct q as [|pq|pq]; [lia| |lia].
  assert (DQ : Zpos (digits2_pos pq) = 53 \/ Zpos (digits2_pos pq) = 54).
  { destruct (Z.lt_ge_cases (Zpos pq) (2 ^ 53)) as [T|T].
    - left. apply digits2_pos_unique. replace (53 - 1) with 52 by lia. lia.
    - right. apply digits2_pos_unique. replace (54 - 1) with 53 by lia. lia. }
  apply round_aux_in; lia.
Qed.

Lemma float_of_int_zero : Prim2SF (float_of_int 0) = S754_zero false.
Proof. reflexivity. Qed.

Lemma float_of_int_below (bits z : Z) :
  1 <= bits <= 63 -> 1 <= z < 2 ^ bits ->
  sf_in 1 (bits + 1) (Prim2SF (float_of_int z)).
Proof.
  intros RB [L U]. unfold float_of_int.
  assert (U63 : 2 ^ bits <= 2 ^ 63) by (apply Z.pow_le_mono_r; lia).
  rewrite of_uint63_spec, Uint63.of_Z_spec.
  rewrite Z.mod_small by (change wB with (2 ^ 63); lia).
  destruct z as [|p|p]; try lia. cbn [binary_normalize].
  pose proof (digits2_pos_bounds p) as B.
  set (d := Zpos (digits2_pos p)) in *.
  assert (D1 : 1 <= d) by (unfold d; lia).
  assert (DB : d <= bits).
  { destruct (Z.le_gt_cases d bits) as [T|T]; [exact T|]. exfalso.
    assert (2 ^ bits <= 2 ^ (d - 1)) by (apply Z.pow_le_mono_r; lia). lia. }
  unfold binary_round. fold d. rewrite fexp64. rewrite Z.max_l by lia.
  destruct (Z.le_gt_cases 53 d) as [T|T].
  - rewrite shl_align_ge by lia. apply round_aux_in; fold d; lia.
  - destruct (shl_align_lt p 0 (d + 0 - 53)) as (p' & -> & E); [lia|].
    assert (B' : 2 ^ 52 <= Zpos p' < 2 ^ 53).
    { rewrite E. replace (0 - (d + 0 - 53)) with (53 - d) by lia.
      assert (P : 0 < 2 ^ (53 - d)) by (apply Z.pow_pos_nonneg; lia).
      assert (E52 : 2 ^ 52 = 2 ^ (d - 1) * 2 ^ (53 - d)).
      { rewrite <- Z.pow_add_r by lia. f_equal. lia. }
      assert (E53 : 2 ^ 53 = 2 ^ d * 2 ^ (53 - d)).
      { rewrite <- Z.pow_add_r by lia. f_equal. lia. }
      rewrite E52, E53. nia. }
    assert (D' : Zpos (digits2_pos p') = 53).
    { apply digits2_pos_unique. replace (53 - 1) with 52 by lia. exact B'. }
    apply round_aux_in; lia.
Qed.

Lemma float_of_int_in (z : Z) :
  1 <= z < 2 ^ 63 -> sf_in 1 64 (Prim2SF (float_of_int z)).
Proof. intros H. apply (float_of_int_below 63 z); [lia | exact H]. Qed.

(** ** Order on non-negative finite floats *)

Lemma sf_in_fin (lo hi : Z) (x : spec_float) : sf_in lo hi x -> sf_fin x.
Proof. destruct x as [s|s| |[|] m e]; cbn [sf_in sf_fin]; tauto. Qed.

Lemma sf_ltb_false_leb (a b : spec_float) :
  sf_fin a -> sf_fin b -> SFltb a b = false -> SFleb b a = true.
Proof.
  destruct a as [[|]|s| |[|] ma ea]; cbn [sf_fin]; try tauto;
    destruct b as [[|]|s| |[|] mb eb]; cbn [sf_fin]; try tauto;
    intros _ _; sf_order.
Qed.

Lemma sf_leb_ltb_trans (a b c : spec_float) :
  sf_fin a -> sf_fin b -> sf_fin c ->
  SFleb a b = true -> SFltb b c = true -> SFltb a c = true.
Proof.
  destruct a as [[|]|s| |[|] ma ea]; cbn [sf_fin]; try tauto;
    destruct b as [[|]|s| |[|] mb eb]; cbn [sf_fin]; try tauto;
    destruct c as [[|]|s| |[|] mc ec]; cbn [sf_fin]; try tauto;
    intros _ _ _; sf_order.
Qed.

Lemma sf_ltb_leb (a b : spec_float) :
  SFltb a b = true -> SFleb a b = true.
Proof.
  unfold SFltb, SFleb. destruct (SFcompare a b) as [[| |]|]; congruence.
Qed.

Lemma sf_leb_refl (a : spec_float) : sf_fin a -> SFleb a a = true.
Proof.
  destruct a as [[|]|s| |[|] ma ea]; cbn [sf_fin]; try tauto;
    intros _; sf_order.
Qed.

Lemma sf_zero_ltb (lo hi : Z) (x : spec_float) :
  sf_in lo hi x -> SFltb (S754_zero false) x = true.
Proof.
  destruct x as [s|s| |[|] m e]; cbn [sf_in]; tauto.
Qed.

(** *** The ratio s / (s + 1.0) stays below 1.0 *)

Lemma div_floor (a b : Z) : 0 < b -> b * (a / b) <= a < b * (a / b) + b.
Proof.
  intros H. pose proof (Z.div_mod a b ltac:(lia)) as E.
  pose proof (Z.mod_pos_bound a b H) as B. lia.
Qed.

(** Adding 1.0 to a float below 2^50 moves it up by at least two units
    in its last place. *)
Lemma add_one_gap (ms : positive) (es : Z) :
  Zpos (digits2_pos ms) = 53 ->
  -53 <= es <= -3 ->
  exists mt et,
    SF64add (S754_finite false ms es)
      (S754_finite false 4503599627370496 (-52))
    = S754_finite false mt et
    /\ Zpos (digits2_pos mt) = 53
    /\ et <= es + 2
    /\ ((et = es /\ Zpos ms + 2 <= Zpos mt)
        \/ (et = es + 1 /\ Zpos ms + 2 <= 2 * Zpos mt)
        \/ et = es + 2).
Proof.
  intros DS RS.
  pose proof (digits2_pos_bounds ms) as BS. rewrite DS in BS.
  replace (53 - 1) with 52 in BS by lia.
  unfold SF64add, SFadd. cbn [cond_Zopp].
  set (ez := Z.min es (-52)).
  rewrite !shl_align_fst by (unfold ez; lia).
  change (Zpos 4503599627370496) with (2 ^ 52).
  set (X := 2 ^ (es - ez)). set (Y := 2 ^ 52 * 2 ^ (-52 - ez)).
  assert (P52 : 0 < 2 ^ 52) by (apply Z.pow_pos_nonneg; lia).
  assert (E53 : 2 ^ 53 = 2 * 2 ^ 52) by reflexivity.
  assert (E54 : 2 ^ 54 = 4 * 2 ^ 52) by reflexivity.
  assert (E49 : 2 ^ 52 = 8 * 2 ^ 49) by reflexivity.
  assert (P49 : 0 < 2 ^ 49) by (apply Z.pow_pos_nonneg; lia).
  assert (FX : 1 <= X /\ 8 * X <= Y /\ Y <= 2 ^ 53 * X).
  { unfold X, Y. destruct (Z.le_gt_cases es (-52)) as [T|T].
    - replace (es - ez) with 0 by (unfold ez; lia). rewrite Z.pow_0_r.
      destruct (Z.eq_dec es (-52)) as [->|N].
      + replace (-52 - ez) with 0 by (unfold ez; lia). rewrite Z.pow_0_r. lia.
      + replace (-52 - ez) with 1 by (unfold ez; lia). rewrite Z.pow_1_r. lia.
    - replace (-52 - ez) with 0 by (unfold ez; lia). rewrite Z.pow_0_r.
      replace (es - ez) with (es + 52) by (unfold ez; lia).
      assert (2 ^ 0 <= 2 ^ (es + 52)) by (apply Z.pow_le_mono_r; lia).
      assert (2 ^ (es + 52) <= 2 ^ 49) by (apply Z.pow_le_mono_r; lia).
      rewrite Z.pow_0_r in *. nia. }
  destruct FX as (X1 & XY & YX).
  assert (J0 : 0 <= es - ez) by (unfold ez; lia).
  assert (BSg : 2 ^ 52 * X + 8 * X <= Zpos ms * X + Y < 2 ^ 54 * X) by nia.
  destruct (Zpos ms * X + Y) as [|sg|sg] eqn:ESg; [nia| |nia].
  cbn [binary_normalize].
  assert (PX : 2 ^ (53 + (es - ez)) = 2 ^ 53 * X)
    by (unfold X; rewrite Z.pow_add_r by lia; reflexivity).
  assert (PX2 : 2 ^ (52 + (es - ez)) = 2 ^ 52 * X)
    by (unfold X; rewrite Z.pow_add_r by lia; reflexivity).
  assert (PX4 : 2 ^ (54 + (es - ez)) = 2 ^ 54 * X)
    by (unfold X; rewrite Z.pow_add_r by lia; reflexivity).
  assert (DSg : Zpos (digits2_pos sg) = 53 + (es - ez)
                \/ Zpos (digits2_pos sg) = 54 + (es - ez)).
  { destruct (Z.lt_ge_cases (Zpos sg) (2 ^ 53 * X)) as [T|T].
    - left. apply digits2_pos_unique.
      replace (53 + (es - ez) - 1) with (52 + (es - ez)) by lia.
      rewrite PX, PX2. nia.
    - right. apply digits2_pos_unique.
      replace (54 + (es - ez) - 1) with (53 + (es - ez)) by lia.
      rewrite PX, PX4. nia. }
  unfold binary_round. rewrite fexp64.
  rewrite shl_align_ge by (unfold ez in *; lia).
  destruct (round_aux_strong sg ez loc_Exact) as (mt & et & -> & DT & C);
    try (unfold ez in *; lia).
  exists mt, et. split; [reflexivity|]. split; [exact DT|].
  destruct DSg as [DSg|DSg]; rewrite DSg in C.
  - replace (53 + (es - ez) - 53) with (es - ez) in C by lia.
    fold X in C.
    pose proof (div_floor (Zpos sg) X ltac:(lia)) as F.
    assert (M1 : Zpos ms + 7 <= Zpos sg / X) by nia.
    destruct C as [(-> & L & U) | (-> & V & W)].
    + split; [lia|]. left. split; lia.
    + split; [lia|]. right. left. split; lia.
  - replace (54 + (es - ez) - 53) with (Z.succ (es - ez)) in C by lia.
    rewrite Z.pow_succ_r in C by lia. fold X in C.
    pose proof (div_floor (Zpos sg) (2 * X) ltac:(lia)) as F.
    assert (M1 : Zpos ms + 7 <= 2 * (Zpos sg / (2 * X))) by nia.
    destruct C as [(-> & L & U) | (-> & V & W)].
    + split; [lia|]. right. left. split; lia.
    + split; [lia|]. right. right. lia.
Qed.

(** Dividing a float by one at least two units in the last place above it
    gives a float with an exponent of at most -53, that is below 1.0. *)
Lemma div_below_one (ms mt : positive) (es et : Z) :
  Zpos (digits2_pos ms) = 53 ->
  Zpos (digits2_pos mt) = 53 ->
  et <= es + 2 ->
  (et = es /\ Zpos ms + 2 <= Zpos mt)
  \/ (et = es + 1 /\ Zpos ms + 2 <= 2 * Zpos mt)
  \/ et = es + 2 ->
  exists mq eq,
    SF64div (S754_finite false ms es) (S754_finite false mt et)
    = S754_finite false mq eq
    /\ eq <= -53.
Proof.
  intros DX DY UB G.
  pose proof (digits2_pos_bounds ms) as BX. rewrite DX in BX.
  pose proof (digits2_pos_bounds mt) as BY. rewrite DY in BY.
  replace (53 - 1) with 52 in BX, BY by lia.
  unfold SF64div, SFdiv. cbn [xorb].
  unfold SFdiv_core_binary. cbn [Zdigits2]. rewrite DX, DY, fexp64.
  replace (53 + es - (53 + et)) with (es - et) by lia.
  rewrite Z.max_l by lia.
  rewrite Z.min_l by lia.
  replace (es - et - (es - et - 53)) with 53 by lia.
  cbv beta iota zeta.
  rewrite Z.shiftl_mul_pow2 by lia.
  destruct (Z.div_eucl (Zpos ms * 2 ^ 53) (Zpos mt)) as [q r] eqn:E.
  assert (Q : q = Zpos ms * 2 ^ 53 / Zpos mt).
  { unfold Z.div. rewrite E. reflexivity. }
  assert (P52 : 0 < 2 ^ 52) by (apply Z.pow_pos_nonneg; lia).
  assert (E53 : 2 ^ 53 = 2 * 2 ^ 52) by reflexivity.
  assert (E54 : 2 ^ 54 = 4 * 2 ^ 52) by reflexivity.
  pose proof (div_floor (Zpos ms * 2 ^ 53) (Zpos mt) ltac:(lia)) as F.
  rewrite <- Q in F.
  assert (BQ : 2 ^ 52 <= q < 2 ^ 54) by nia.
  destruct q as [|pq|pq]; [lia| |lia].
  assert (DQ : (Zpos pq < 2 ^ 53 /\ Zpos (digits2_pos pq) = 53)
               \/ (2 ^ 53 <= Zpos pq /\ Zpos (digits2_pos pq) = 54)).
  { destruct (Z.lt_ge_cases (Zpos pq) (2 ^ 53)) as [T|T].
    - left. split; [exact T|].
      apply digits2_pos_unique. replace (53 - 1) with 52 by lia. lia.
    - right. split; [exact T|].
      apply digits2_pos_unique. replace (54 - 1) with 53 by lia. lia. }
  destruct (round_aux_strong pq (es - et - 53) (new_location (Zpos mt) r))
    as (mq & eq & -> & _ & C); try lia.
  exists mq, eq. split; [reflexivity|].
  destruct DQ as [[QL DQ]|[QL DQ]]; rewrite DQ in C.
  - replace (53 - 53) with 0 in C by lia.
    rewrite Z.pow_0_r, Z.div_1_r in C.
    destruct C as [(-> & _) | (-> & _ & W)]; [lia|].
    destruct G as [[-> G] | [[-> G] | -> ]]; [exfalso; nia | lia | lia].
  - replace (54 - 53) with 1 in C by lia. rewrite Z.pow_1_r in C.
    pose proof (div_floor (Zpos pq) 2 ltac:(lia)) as F2.
    destruct G as [[-> G] | [[-> G] | -> ]].
    + exfalso. nia.
    + destruct C as [(-> & _) | (-> & _ & W)]; [lia|]. exfalso. nia.
    + destruct C as [(-> & _) | (-> & _ & W)]; lia.
Qed.

(** *** The same facts on primitive floats *)

Lemma float_ltb_false_leb (a b : float) :
  sf_fin (Prim2SF a) -> sf_fin (Prim2SF b) ->
  (a <? b)%float = false -> (b <=? a)%float = true.
Proof. rewrite FloatAxioms.ltb_spec, FloatAxioms.leb_spec. apply sf_ltb_false_leb. Qed.

Lemma float_leb_ltb_trans (a b c : float) :
  sf_fin (Prim2SF a) -> sf_fin (Prim2SF b) -> sf_fin (Prim2SF c) ->
  (a <=? b)%float = true -> (b <? c)%float = true -> (a <? c)%float = true.
Proof. rewrite !FloatAxioms.ltb_spec, FloatAxioms.leb_spec. apply sf_leb_ltb_trans. Qed.

Lemma float_ltb_leb (a b : float) :
  (a <? b)%float = true -> (a <=? b)%float = true.
Proof. rewrite FloatAxioms.ltb_spec, FloatAxioms.leb_spec. apply sf_ltb_leb. Qed.

Lemma float_zero_ltb (lo hi : Z) (x : float) :
  sf_in lo hi (Prim2SF x) -> (0 <? x)%float = true.
Proof. rewrite FloatAxioms.ltb_spec. apply sf_zero_ltb. Qed.

Lemma float_ltb_not_eqb (a b : float) :
  (a <? b)%float = true -> (b =? a)%float = false.
Proof.
  rewrite FloatAxioms.ltb_spec, FloatAxioms.eqb_spec. unfold SFltb, SFeqb.
  destruct (Prim2SF a) as [[|]|[|]| |[|] ma ea];
    destruct (Prim2SF b) as [[|]|[|]| |[|] mb eb];
    try discriminate; try reflexivity; sf_order.
Qed.

Lemma float_06_in : sf_in 0 0 (Prim2SF 0.6%float).
Proof.
  replace (Prim2SF 0.6%float)
    with (S754_finite false 5404319552844595 (-53)) by reflexivity.
  cbn [sf_in]. split; [reflexivity | lia].
Qed.

Lemma float_04_in : sf_in (-1) (-1) (Prim2SF 0.4%float).
Proof.
  replace (Prim2SF 0.4%float)
    with (S754_finite false 7205759403792794 (-54)) by reflexivity.
  cbn [sf_in]. split; [reflexivity | lia].
Qed.

Lemma float_1_in : sf_in 1 1 (Prim2SF 1.0%float).
Proof.
  replace (Prim2SF 1.0%float)
    with (S754_finite false 4503599627370496 (-52)) by reflexivity.
  cbn [sf_in]. split; [reflexivity | lia].
Qed.

(** The score of a non-empty list of matches is a positive normal float
    when the integers it is computed from are below 2^63. *)
Lemma score64_below (bits : Z) (normalized : str) (matches : list str) :
  1 <= bits <= 63 ->
  matches <> [] ->
  len matches < 2 ^ bits ->
  sum_len matches < 2 ^ bits ->
  len normalized < 2 ^ bits ->
  sf_in 0 (bits + 4) (Prim2SF (score64 normalized matches)).
Proof.
  intros RB NE K S L. unfold score64.
  assert (P1 : 2 ^ 1 <= 2 ^ bits) by (apply Z.pow_le_mono_r; lia).
  rewrite Z.pow_1_r in P1.
  assert (K1 : 1 <= len matches).
  { destruct matches as [|m ms]; [congruence | apply len_pos]. }
  pose proof float_06_in as C6.
  pose proof float_04_in as C4.
  pose proof (float_of_int_below bits (len matches) RB (conj K1 K)) as FK.
  assert (A : sf_in 0 (bits + 2)
                (SF64mul (Prim2SF 0.6) (Prim2SF (float_of_int (len matches))))).
  { pose proof (mul_in _ _ 0 0 1 (bits + 1) C6 FK) as R.
    apply (sf_in_weaken _ _ _ _ _ (R ltac:(lia) ltac:(lia))); lia. }
  pose proof (len_nonneg normalized) as L0.
  assert (FL : sf_in 1 (bits + 1)
                 (Prim2SF (float_of_int (Z.max (len normalized) 1)))).
  { apply float_of_int_below; lia. }
  pose proof (sum_len_nonneg matches) as S0.
  rewrite FloatAxioms.add_spec, !FloatAxioms.mul_spec, FloatAxioms.div_spec.
  destruct (Z.eq_dec (sum_len matches) 0) as [Z0|NZ].
  - rewrite Z0, float_of_int_zero.
    destruct (sf_in_inv _ _ _ FL) as (ml & el & -> & _).
    destruct (sf_in_inv _ _ _ C4) as (m4 & e4 & -> & _).
    cbn [SF64div SFdiv xorb].
    change (SF64mul (S754_finite false m4 e4) (S754_zero false))
      with (S754_zero false).
    rewrite (add_zero_r _ _ _ A). apply (sf_in_weaken _ _ _ _ _ A); lia.
  - assert (FS : sf_in 1 (bits + 1)
                   (Prim2SF (float_of_int (sum_len matches)))).
    { apply float_of_int_below; lia. }
    pose proof (div_in _ _ 1 (bits + 1) 1 (bits + 1) FS FL) as D.
    pose proof (mul_in _ _ (-1) (-1) (1 - (bits + 1)) (bits + 1 - 1 + 2) C4
                  (D ltac:(lia) ltac:(lia))) as B.
    pose proof (add_in _ _ 0 (bits + 2) _ _ A
                  (B ltac:(lia) ltac:(lia))) as R.
    apply (sf_in_weaken _ _ _ _ _ (R ltac:(lia) ltac:(lia))); lia.
Qed.

Lemma score64_in (normalized : str) (matches : list str) :
  matches <> [] ->
  len matches < 2 ^ 63 ->
  sum_len matches < 2 ^ 63 ->
  len normalized < 2 ^ 63 ->
  sf_in 0 67 (Prim2SF (score64 normalized matches)).
Proof. intros NE K S L. apply (score64_below 63); [lia|assumption..]. Qed.

(** The confidence computed from a score: positive and at most 1.0. *)
Lemma confidence64_range (s : float) :
  sf_in 0 67 (Prim2SF s) ->
  (0 <? py_min64 (s / (s + 1.0)) 1.0)%float = true
  /\ (py_min64 (s / (s + 1.0)) 1.0 <=? 1.0)%float = true.
Proof.
  intros S.
  pose proof float_1_in as C1.
  assert (T : sf_in 1 69 (Prim2SF (s + 1.0))).
  { rewrite FloatAxioms.add_spec.
    pose proof (add_in _ _ 0 67 1 1 S C1) as R.
    apply (sf_in_weaken _ _ _ _ _ (R ltac:(lia) ltac:(lia))); lia. }
  assert (Q : sf_in (-69) 68 (Prim2SF (s / (s + 1.0)))).
  { rewrite FloatAxioms.div_spec.
    pose proof (div_in _ _ 0 67 1 69 S T) as R.
    apply (sf_in_weaken _ _ _ _ _ (R ltac:(lia) ltac:(lia))); lia. }
  unfold py_min64.
  destruct (1.0 <? s / (s + 1.0))%float eqn:E.
  - split; reflexivity.
  - split.
    + exact (float_zero_ltb _ _ _ Q).
    + apply float_ltb_false_leb; [| |exact E].
      * exact (sf_in_fin _ _ _ C1).
      * exact (sf_in_fin _ _ _ Q).
Qed.

(** Below 2^50 the quotient of line 110 is a float strictly below 1.0:
    the clamp leaves it as it is. *)
Lemma ratio_below_one (s : float) :
  sf_in 0 50 (Prim2SF s) ->
  (s / (s + 1.0) <? 1.0)%float = true
  /\ py_min64 (s / (s + 1.0)) 1.0 = (s / (s + 1.0))%float.
Proof.
  intros S.
  destruct (sf_in_inv _ _ _ S) as (ms & es & E & BS & RS).
  assert (DS : Zpos (digits2_pos ms) = 53).
  { apply digits2_pos_unique. replace (53 - 1) with 52 by lia. exact BS. }
  assert (Q : exists mq eq,
             Prim2SF (s / (s + 1.0)) = S754_finite false mq eq /\ eq <= -53).
  { rewrite FloatAxioms.div_spec, FloatAxioms.add_spec, E.
    replace (Prim2SF 1.0%float)
      with (S754_finite false 4503599627370496 (-52)) by reflexivity.
    destruct (add_one_gap ms es DS ltac:(lia))
      as (mt & et & -> & DT & UB & G).
    exact (div_below_one ms mt es et DS DT UB G). }
  destruct Q as (mq & eq & Q & B).
  assert (L : (s / (s + 1.0) <? 1.0)%float = true).
  { rewrite FloatAxioms.ltb_spec, Q.
    replace (Prim2SF 1.0%float)
      with (S754_finite false 4503599627370496 (-52)) by reflexivity.
    unfold SFltb, SFcompare.
    destruct (Z.compare_spec eq (-52)) as [C|C|C]; [lia | reflexivity | lia]. }
  split; [exact L|].
  unfold py_min64.
  replace (1.0 <? s / (s + 1.0))%float with false; [reflexivity|].
  symmetry. rewrite FloatAxioms.ltb_spec, Q.
  replace (Prim2SF 1.0%float)
    with (S754_finite false 4503599627370496 (-52)) by reflexivity.
  unfold SFltb, SFcompare.
  destruct (Z.compare_spec (-52) eq) as [C|C|C]; [lia | lia | reflexivity].
Qed.

End Binary64.

(* ------------------------------------------------------------------ *)
(** ** The selection loop in binary64 *)

Lemma select_step64_empty (normalized : str) (st : best64) (code : str) :
  select_step64 normalized st (code, []) = st.
Proof. destruct st as [[bc bs] bk]. reflexivity. Qed.

Lemma select_step64_take (normalized : str) (bc : option str) (bs : float)
    (bk : list str) (code : str) (matches : list str) :
  matches <> [] ->
  (bs <? score64 normalized matches)%float = true ->
  select_step64 normalized (bc, bs, bk) (code, matches)
  = (Some code, score64 normalized matches, matches).
Proof.
  intros NE L. unfold select_step64.
  destruct matches as [|m ms]; [congruence|]. cbn [is_empty].
  fold (score64 normalized (m :: ms)). rewrite L. reflexivity.
Qed.

Lemma select_step64_keep (normalized : str) (bc : option str) (bs : float)
    (bk : list str) (code : str) (matches : list str) :
  (bs <? score64 normalized matches)%float = false ->
  select_step64 normalized (bc, bs, bk) (code, matches) = (bc, bs, bk).
Proof.
  intros L. unfold select_step64.
  destruct matches as [|m ms]; [reflexivity|]. cbn [is_empty].
  fold (score64 normalized (m :: ms)). rewrite L. reflexivity.
Qed.

(** Invariant of the loop over entries whose scores are positive normal
    floats, from any starting score that is zero or positive: either
    nothing beat the starting score, or the loop stops on the first entry
    that attains the largest score above it. *)
Lemma select64_fold (normalized : str) (items : dict (list str)) :
  (forall c m, In (c, m) items -> m <> [] ->
               sf_in 0 67 (Prim2SF (score64 normalized m))) ->
  forall (bc : option str) (bs : float) (bk : list str),
    sf_fin (Prim2SF bs) ->
    (fold_left (select_step64 normalized) items (bc, bs, bk) = (bc, bs, bk)
     /\ forall c m, In (c, m) items ->
                    m = [] \/ (score64 normalized m <=? bs)%float = true)
    \/
    (exists pre c m post,
        items = pre ++ (c, m) :: post
        /\ m <> []
        /\ fold_left (select_step64 normalized) items (bc, bs, bk)
           = (Some c, score64 normalized m, m)
        /\ (bs <? score64 normalized m)%float = true
        /\ (forall c' m', In (c', m') pre ->
               m' = []
               \/ (score64 normalized m' <? score64 normalized m)%float = true)
        /\ (forall c' m', In (c', m') post ->
               m' = []
               \/ (score64 normalized m' <=? score64 normalized m)%float
                  = true)).
Proof.
  induction items as [|[c0 m0] items IH]; intros G bc bs bk F.
  - left. split; [reflexivity | intros c m []].
  - assert (G' : forall c m, In (c, m) items -> m <> [] ->
                   sf_in 0 67 (Prim2SF (score64 normalized m))).
    { intros c m J. apply (G c). right; exact J. }
    cbn [fold_left].
    destruct m0 as [|kw0 ms0].
    { rewrite select_step64_empty.
      destruct (IH G' bc bs bk F)
        as [[E A] | (pre & c & m & post & E & NE & R & L & B & Af)].
      - left. split; [exact E|].
        intros c m [H|H]; [injection H as _ <-; left; reflexivity | eauto].
      - right. exists ((c0, []) :: pre), c, m, post.
        repeat split; try assumption.
        + simpl. congruence.
        + intros c' m' [H|H]; [injection H as _ <-; left; reflexivity | eauto]. }
    assert (S0 : sf_in 0 67 (Prim2SF (score64 normalized (kw0 :: ms0)))).
    { apply (G c0); [left; reflexivity | discriminate]. }
    pose proof (sf_in_fin _ _ _ S0) as F0.
    destruct (bs <? score64 normalized (kw0 :: ms0))%float eqn:L0.
    + rewrite select_step64_take by (assumption || discriminate).
      destruct (IH G' (Some c0) (score64 normalized (kw0 :: ms0))
                  (kw0 :: ms0) F0)
        as [[E A] | (pre & c & m & post & E & NE & R & L & B & Af)].
      * right. exists [], c0, (kw0 :: ms0), items.
        repeat split; try assumption; try discriminate.
        intros c' m' [].
      * assert (Sm : sf_in 0 67 (Prim2SF (score64 normalized m))).
        { apply (G' c); [|exact NE]. rewrite E. apply in_or_app.
          right. left. reflexivity. }
        right. exists ((c0, kw0 :: ms0) :: pre), c, m, post.
        repeat split; try assumption.
        -- simpl. congruence.
        -- apply (float_leb_ltb_trans _ (score64 normalized (kw0 :: ms0)));
             try assumption.
           ++ exact (sf_in_fin _ _ _ Sm).
           ++ apply float_ltb_leb. exact L0.
        -- intros c' m' [H|H]; [|eauto].
           injection H as _ <-. right. exact L.
    + rewrite select_step64_keep by assumption.
      destruct (IH G' bc bs bk F)
        as [[E A] | (pre & c & m & post & E & NE & R & L & B & Af)].
      * left. split; [exact E|].
        intros c m [H|H]; [|eauto].
        injection H as _ <-. right.
        apply float_ltb_false_leb; assumption.
      * assert (Sm : sf_in 0 67 (Prim2SF (score64 normalized m))).
        { apply (G' c); [|exact NE]. rewrite E. apply in_or_app.
          right. left. reflexivity. }
        right. exists ((c0, kw0 :: ms0) :: pre), c, m, post.
        repeat split; try assumption.
        -- simpl. congruence.
        -- intros c' m' [H|H]; [|eauto].
           injection H as _ <-. right.
           apply (float_leb_ltb_trans _ bs); try assumption.
           ++ exact (sf_in_fin _ _ _ Sm).
           ++ apply float_ltb_false_leb; assumption.
Qed.

(** The loop as the source starts it, with [best_score = 0.0]. *)
Lemma select64_spec (normalized : str) (items : dict (list str)) :
  (forall c m, In (c, m) items -> m <> [] ->
               sf_in 0 67 (Prim2SF (score64 normalized m))) ->
  (select64 normalized items = (None, 0.0%float, [])
   /\ forall c m, In (c, m) items -> m = [])
  \/
  (exists pre c m post,
      items = pre ++ (c, m) :: post
      /\ m <> []
      /\ select64 normalized items = (Some c, score64 normalized m, m)
      /\ (forall c' m', In (c', m') pre ->
             m' = []
             \/ (score64 normalized m' <? score64 normalized m)%float = true)
      /\ (forall c' m', In (c', m') post ->
             m' = []
             \/ (score64 normalized m' <=? score64 normalized m)%float
                = true)).
Proof.
  intros G. unfold select64.
  destruct (select64_fold normalized items G None 0.0%float [])
    as [[E A] | (pre & c & m & post & E & NE & R & L & B & Af)].
  - exact I.
  - left. split; [exact E|].
    intros c m H. destruct (A c m H) as [E0|L]; [exact E0|].
    destruct m as [|kw ms]; [reflexivity|]. exfalso.
    assert (S : sf_in 0 67 (Prim2SF (score64 normalized (kw :: ms)))).
    { apply (G c); [exact H | discriminate]. }
    pose proof (float_zero_ltb _ _ _ S) as P.
    apply float_ltb_not_eqb in P.
    rewrite FloatAxioms.leb_spec in L. rewrite FloatAxioms.eqb_spec in P.
    destruct (sf_in_inv _ _ _ S) as (ms' & es & Q & _).
    rewrite Q in L, P. discriminate L.
  - right. exists pre, c, m, post. repeat split; assumption.
Qed.

(* ------------------------------------------------------------------ *)
(** ** Classification in binary64 *)

Lemma len_filter_le (f : str -> bool) (l : list str) :
  (len (filter f l) <= len l)%Z.
Proof.
  unfold len. apply Nat2Z.inj_le. apply filter_length_le.
Qed.

(** Under [receivable], every integer converted to a float while scoring
    is below 2^53. *)
Lemma receivable_sizes (normalized : str) (km : dict (list str))
    (code : str) (keywords : list str) :
  normalized <> [] ->
  receivable normalized km ->
  In (code, keywords) km ->
  (len (matching_keywords normalized keywords) < 2 ^ 53)%Z
  /\ (sum_len (matching_keywords normalized keywords) < 2 ^ 53)%Z
  /\ (len normalized < 2 ^ 53)%Z.
Proof.
  intros NE [RL RK] J. specialize (RK code keywords J).
  assert (L1 : (1 <= len normalized)%Z).
  { destruct normalized as [|c n]; [congruence | apply len_pos]. }
  pose proof (len_filter_le (fun kw => contains kw normalized) keywords) as F.
  fold (matching_keywords normalized keywords) in F.
  pose proof (len_nonneg (matching_keywords normalized keywords)) as M0.
  assert (S : (sum_len (matching_keywords normalized keywords)
               <= len (matching_keywords normalized keywords)
                  * len normalized)%Z).
  { apply sum_len_bound. intros m I. apply contains_len.
    apply matching_keywords_in in I. exact (proj2 I). }
  split; [nia|]. split; [nia | exact RL].
Qed.

Section Classify64.

Variable lower : str -> str.
Variable isspace : char -> bool.

Local Abbreviation init := (AccountClassifier_init lower).
Local Abbreviation normalize :=
  (fun text : str => strip isspace (lower text)).
Local Abbreviation run64 := (classify64 lower isspace).

(** The three outcomes of [classify] on valid input, with the floats of
    the source. *)
Lemma classify64_cases (self : AccountClassifier) (text : str) :
  NoDup (keys (keyword_map self)) ->
  normalize text <> [] ->
  receivable (normalize text) (keyword_map self) ->
  let n := normalize text in
  (exists subject,
      dict_get n (exact_lookup self) = Some subject
      /\ run64 text self = (self, inr (mkResult64 subject 1.0%float [n])))
  \/ (dict_get n (exact_lookup self) = None
      /\ (forall code keywords,
             In (code, keywords) (keyword_map self) ->
             matching_keywords n keywords = [])
      /\ run64 text self
         = (self, inr (mkResult64 (str_of "UNCLASSIFIED") 0.0%float [])))
  \/ (dict_get n (exact_lookup self) = None
      /\ exists pre code keywords post,
        keyword_map self = pre ++ (code, keywords) :: post
        /\ matching_keywords n keywords <> []
        /\ sf_in 0 67 (Prim2SF (score64 n (matching_keywords n keywords)))
        /\ run64 text self
           = (self,
              inr (mkResult64 code
                     (py_min64
                        (score64 n (matching_keywords n keywords)
                         / (score64 n (matching_keywords n keywords) + 1.0))
                        1.0)
                     (matching_keywords n keywords)))
        /\ (forall code' keywords',
               In (code', keywords') pre ->
               matching_keywords n keywords' = []
               \/ (score64 n (matching_keywords n keywords')
                   <? score64 n (matching_keywords n keywords))%float = true)
        /\ (forall code' keywords',
               In (code', keywords') post ->
               matching_keywords n keywords' = []
               \/ (score64 n (matching_keywords n keywords')
                   <=? score64 n (matching_keywords n keywords))%float
                  = true)).
Proof.
  intros ND NE RC n. subst n. cbv beta in *.
  remember (strip isspace (lower text)) as n eqn:Hn.
  assert (G : forall c m,
             In (c, m) (token_matches_of n (keyword_map self)) -> m <> [] ->
             sf_in 0 67 (Prim2SF (score64 n m))).
  { intros c m J M. unfold token_matches_of in J. apply in_map_iff in J.
    destruct J as ([c' kws] & E & J). injection E as _ <-.
    destruct (receivable_sizes n (keyword_map self) c' kws NE RC J)
      as (K & S & L).
    cbn [snd] in *.
    apply score64_in; [exact M | | | ];
      (eapply Z.lt_trans; [eassumption | reflexivity]). }
  assert (U : run64 text self
              = match dict_get n (exact_lookup self) with
                | Some subject =>
                    (self, inr (mkResult64 subject 1.0%float [n]))
                | None =>
                    (self,
                     inr
                       (match
                          select64 n (token_matches_of n (keyword_map self))
                        with
                        | (None, _, _) =>
                            mkResult64 (str_of "UNCLASSIFIED") 0.0%float []
                        | (Some code, best_score, best_keywords) =>
                            mkResult64 code
                              (py_min64 (best_score / (best_score + 1.0)) 1.0)
                              best_keywords
                        end))
                end).
  { unfold classify64, bind, attr, ret. rewrite <- Hn.
    destruct n as [|c n']; [congruence|]. cbn [is_empty].
    destruct (dict_get (c :: n') (exact_lookup self)); [reflexivity|].
    rewrite token_matches_spec by exact ND.
    destruct (select64 _ _) as [[[code|] bs] bk]; reflexivity. }
  destruct (dict_get n (exact_lookup self)) as [subject|] eqn:D.
  - left. exists subject. split; [reflexivity | exact U].
  - right.
    destruct (select64_spec n (token_matches_of n (keyword_map self)) G)
      as [[E A] | (pre' & c & m & post' & E & NEm & R & B & Af)].
    + left. split; [reflexivity|]. split.
      * intros code keywords J. apply (A code).
        unfold token_matches_of.
        apply (in_map (fun item : str * list str =>
                         (fst item, matching_keywords n (snd item)))) in J.
        exact J.
      * rewrite U, E. reflexivity.
    + right. split; [reflexivity|].
      assert (Sm : sf_in 0 67 (Prim2SF (score64 n m))).
      { apply (G c); [|exact NEm]. rewrite E. apply in_or_app.
        right. left. reflexivity. }
      unfold token_matches_of in E.
      apply map_eq_app in E. destruct E as (pre & rest & Ekm & Epre & Erest).
      apply map_eq_cons in Erest.
      destruct Erest as ([code keywords] & post & -> & Eit & Epost).
      simpl in Eit. injection Eit as -> <-.
      exists pre, c, keywords, post.
      split; [exact Ekm|]. split; [exact NEm|]. split; [exact Sm|]. split.
      * rewrite U, R. reflexivity.
      * split.
        -- intros code' keywords' J. apply (B code'). rewrite <- Epre.
           apply (in_map (fun item : str * list str =>
                            (fst item, matching_keywords n (snd item)))) in J.
           exact J.
        -- intros code' keywords' J. apply (Af code'). rewrite <- Epost.
           apply (in_map (fun item : str * list str =>
                            (fst item, matching_keywords n (snd item)))) in J.
           exact J.
Qed.

End Classify64.

(* ------------------------------------------------------------------ *)
(** ** The scan branch with the floats of the source *)

Lemma sizes_below_receivable (bits : Z) (normalized : str)
    (km : dict (list str)) :
  (0 <= bits <= 53)%Z -> sizes_below bits normalized km ->
  receivable normalized km.
Proof.
  intros B [L K].
  assert (P : (2 ^ bits <= 2 ^ 53)%Z) by (apply Z.pow_le_mono_r; lia).
  split; [lia|]. intros code keywords J. specialize (K code keywords J). lia.
Qed.

Lemma sizes_below_sizes (bits : Z) (normalized : str) (km : dict (list str))
    (code : str) (keywords : list str) :
  normalized <> [] ->
  sizes_below bits normalized km ->
  In (code, keywords) km ->
  (len (matching_keywords normalized keywords) < 2 ^ bits)%Z
  /\ (sum_len (matching_keywords normalized keywords) < 2 ^ bits)%Z
  /\ (len normalized < 2 ^ bits)%Z.
Proof.
  intros NE [RL RK] J. specialize (RK code keywords J).
  assert (L1 : (1 <= len normalized)%Z).
  { destruct normalized as [|c n]; [congruence | apply len_pos]. }
  pose proof (len_filter_le (fun kw => contains kw normalized) keywords) as F.
  fold (matching_keywords normalized keywords) in F.
  pose proof (len_nonneg (matching_keywords normalized keywords)) as M0.
  assert (S : (sum_len (matching_keywords normalized keywords)
               <= len (matching_keywords normalized keywords)
                  * len normalized)%Z).
  { apply sum_len_bound. intros m I. apply contains_len.
    apply matching_keywords_in in I. exact (proj2 I). }
  split; [nia|]. split; [nia | exact RL].
Qed.

Section Scan64.

Variable lower : str -> str.
Variable isspace : char -> bool.

Local Abbreviation init := (AccountClassifier_init lower).
Local Abbreviation normalize :=
  (fun text : str => strip isspace (lower text)).
Local Abbreviation run64 := (classify64 lower isspace).

(** Without exact key and with a code that has a match, the scan has a
    winner. *)
Lemma scan64_winner (self : AccountClassifier) (text : str) :
  NoDup (keys (keyword_map self)) ->
  normalize text <> [] ->
  receivable (normalize text) (keyword_map self) ->
  ~ In (normalize text) (keys (exact_lookup self)) ->
  (exists code keywords,
      In (code, keywords) (keyword_map self)
      /\ matching_keywords (normalize text) keywords <> []) ->
  let n := normalize text in
  exists pre code keywords post,
    keyword_map self = pre ++ (code, keywords) :: post
    /\ matching_keywords n keywords <> []
    /\ sf_in 0 67 (Prim2SF (score64 n (matching_keywords n keywords)))
    /\ run64 text self
       = (self,
          inr (mkResult64 code
                 (py_min64
                    (score64 n (matching_keywords n keywords)
                     / (score64 n (matching_keywords n keywords) + 1.0))
                    1.0)
                 (matching_keywords n keywords)))
    /\ (forall code' keywords',
           In (code', keywords') pre ->
           matching_keywords n keywords' = []
           \/ (score64 n (matching_keywords n keywords')
               <? score64 n (matching_keywords n keywords))%float = true)
    /\ (forall code' keywords',
           In (code', keywords') post ->
           matching_keywords n keywords' = []
           \/ (score64 n (matching_keywords n keywords')
               <=? score64 n (matching_keywords n keywords))%float = true).
Proof.
  intros ND NE R NK (c0 & k0 & I0 & M0) n.
  destruct (classify64_cases lower isspace self text ND NE R)
    as [(subject & G & _) | [(_ & A & _) | (_ & W)]].
  - apply dict_get_none in NK. cbv beta in G. congruence.
  - exfalso. exact (M0 (A c0 k0 I0)).
  - exact W.
Qed.

(** C3: the keyword scan keeps the first code of the best score, with the
    scores as the source computes them in binary64.  For an engine built
    by the constructor and a valid text of receivable size that is no exact
    key and contains a keyword, [classify] returns a code of [keyword_map]
    with its matches, which are not empty; every code before it in the
    mapping's order has no match or a strictly smaller score, every code
    after it has no match or a score that is not greater. *)
Theorem first_maximal_code_wins_binary64
    (km : dict (list str)) (el : option (dict str))
    (eng : AccountClassifier) (text : str) :
  init km el = inr eng ->
  normalize text <> [] ->
  receivable (normalize text) (keyword_map eng) ->
  ~ In (normalize text) (keys (exact_lookup eng)) ->
  (exists code keywords kw,
      In (code, keywords) (keyword_map eng)
      /\ In kw keywords /\ contains kw (normalize text) = true) ->
  let n := normalize text in
  exists pre code keywords post r,
    keyword_map eng = pre ++ (code, keywords) :: post
    /\ run64 text eng = (eng, inr r)
    /\ subject_code64 r = code
    /\ matched_keywords64 r = matching_keywords n keywords
    /\ matching_keywords n keywords <> []
    /\ (forall code' keywords',
           In (code', keywords') pre ->
           matching_keywords n keywords' = []
           \/ (score64 n (matching_keywords n keywords')
               <? score64 n (matching_keywords n keywords))%float = true)
    /\ (forall code' keywords',
           In (code', keywords') post ->
           matching_keywords n keywords' = []
           \/ (score64 n (matching_keywords n keywords')
               <=? score64 n (matching_keywords n keywords))%float = true).
Proof.
  intros I NE R NK (c0 & k0 & kw0 & I0 & J0 & C0) n.
  destruct (init_inr lower km el eng I) as (_ & ND & _).
  destruct (scan64_winner eng text ND NE R NK)
    as (pre & code & keywords & post & E & M & _ & Run & B & A).
  { exists c0, k0. split; [exact I0|].
    exact (matching_keywords_some _ _ _ J0 C0). }
  exists pre, code, keywords, post. eexists.
  split; [exact E|]. split; [exact Run|].
  cbn [subject_code64 matched_keywords64].
  split; [reflexivity|]. split; [reflexivity|]. split; [exact M|].
  split; [exact B | exact A].
Qed.

(** C5: the confidence of a result decided by the keyword scan, in
    binary64.  With sizes below 2^46, the returned confidence is
    [min(best_score / (best_score + 1.0), 1.0)] where [best_score] is
    [0.6 * raw_score + 0.4 * density] of the returned keywords, every
    operation rounded as the source rounds it; the quotient is a float
    strictly below 1.0, so the clamp returns it unchanged. *)
Theorem scan_confidence_formula_binary64
    (km : dict (list str)) (el : option (dict str))
    (eng : AccountClassifier) (text : str) :
  init km el = inr eng ->
  normalize text <> [] ->
  sizes_below 46 (normalize text) (keyword_map eng) ->
  ~ In (normalize text) (keys (exact_lookup eng)) ->
  (exists code keywords kw,
      In (code, keywords) (keyword_map eng)
      /\ In kw keywords /\ contains kw (normalize text) = true) ->
  let n := normalize text in
  exists r keywords,
    run64 text eng = (eng, inr r)
    /\ In (subject_code64 r, keywords) (keyword_map eng)
    /\ matched_keywords64 r = matching_keywords n keywords
    /\ let best_score :=
         (0.6 * float_of_int (len (matched_keywords64 r))
          + 0.4 * (float_of_int (sum_len (matched_keywords64 r))
                   / float_of_int (Z.max (len n) 1)))%float in
       confidence64 r = py_min64 (best_score / (best_score + 1.0)) 1.0
       /\ confidence64 r = (best_score / (best_score + 1.0))%float
       /\ (confidence64 r <? 1.0)%float = true.
Proof.
  intros I NE SB NK (c0 & k0 & kw0 & I0 & J0 & C0) n.
  destruct (init_inr lower km el eng I) as (_ & ND & _).
  pose proof (sizes_below_receivable 46 _ _ ltac:(lia) SB) as R.
  destruct (scan64_winner eng text ND NE R NK)
    as (pre & code & keywords & post & E & M & _ & Run & _ & _).
  { exists c0, k0. split; [exact I0|].
    exact (matching_keywords_some _ _ _ J0 C0). }
  assert (J : In (code, keywords) (keyword_map eng)).
  { rewrite E. apply in_or_app. right. left. reflexivity. }
  destruct (sizes_below_sizes 46 _ _ code keywords NE SB J) as (K & S & L).
  pose proof (score64_below 46 _ _ ltac:(lia) M K S L) as S50.
  destruct (ratio_below_one _ S50) as [Lt P].
  eexists. exists keywords. split; [exact Run|].
  cbn [subject_code64 matched_keywords64 confidence64].
  split; [exact J|]. split; [reflexivity|].
  cbv zeta. split; [reflexivity|]. split; [exact P|].
  rewrite <- P in Lt. exact Lt.
Qed.


(** X8: the empty keyword occurs in every text.  When some code of the
    engine lists it, a valid text of receivable size without exact match
    is never unclassified: the result carries at least one matched keyword
    and a confidence above 0.0. *)
Theorem empty_keyword_always_matches
    (km : dict (list str)) (el : option (dict str))
    (eng : AccountClassifier) (text : str) :
  init km el = inr eng ->
  normalize text <> [] ->
  receivable (normalize text) (keyword_map eng) ->
  ~ In (normalize text) (keys (exact_lookup eng)) ->
  (exists code keywords,
      In (code, keywords) (keyword_map eng) /\ In [] keywords) ->
  exists r,
    run64 text eng = (eng, inr r)
    /\ matched_keywords64 r <> []
    /\ (0.0 <? confidence64 r)%float = true.
Proof.
  intros I NE R NK (c0 & k0 & I0 & J0).
  destruct (init_inr lower km el eng I) as (_ & ND & _).
  destruct (scan64_winner eng text ND NE R NK)
    as (pre & code & keywords & post & _ & M & S & Run & _).
  { exists c0, k0. split; [exact I0|].
    apply (matching_keywords_some _ _ [] J0).
    destruct (strip isspace (lower text)); reflexivity. }
  eexists. split; [exact Run|].
  cbn [matched_keywords64 confidence64]. split; [exact M|].
  exact (proj1 (confidence64_range _ S)).
Qed.

End Scan64.

(* ------------------------------------------------------------------ *)
(** ** Both arithmetics side by side *)

Section Agreement.

Variable lower : str -> str.
Variable isspace : char -> bool.

Local Abbreviation init := (AccountClassifier_init lower).
Local Abbreviation normalize :=
  (fun text : str => strip isspace (lower text)).
Local Abbreviation run := (classify lower isspace).
Local Abbreviation run64 := (classify64 lower isspace).

Lemma classify64_empty (self : AccountClassifier) (text : str) :
  normalize text = [] -> run64 text self = (self, inl InvalidInput).
Proof.
  intros E. unfold classify64. cbv beta in E. rewrite E. reflexivity.
Qed.

Lemma classify64_error (self : AccountClassifier) (text : str) (e : exn)
    (s : AccountClassifier) :
  run64 text self = (s, inl e) -> e = InvalidInput /\ normalize text = [].
Proof.
  unfold classify64, bind, attr, ret, raise.
  destruct (strip isspace (lower text)) as [|c n]; cbn [is_empty].
  - simpl. intros H; injection H as _ <-. split; reflexivity.
  - destruct (dict_get _ (exact_lookup self)); [discriminate|].
    destruct (select64 _ _) as [[[code|] bs] bk]; discriminate.
Qed.

Lemma classify_error (self : AccountClassifier) (text : str) (e : exn)
    (s : AccountClassifier) :
  run text self = (s, inl e) -> e = InvalidInput /\ normalize text = [].
Proof.
  unfold classify, bind, attr, ret, raise.
  destruct (strip isspace (lower text)) as [|c n]; cbn [is_empty].
  - simpl. intros H; injection H as _ <-. split; reflexivity.
  - destruct (dict_get _ (exact_lookup self)); [discriminate|].
    destruct (select _ _) as [[[code|] bs] bk]; discriminate.
Qed.

(** X14: the confidence as the source computes it lies in [0.0, 1.0].
    For an engine built by the constructor and a valid text of receivable
    size, [classify] returns a result whose binary64 confidence is at
    least 0.0 and at most 1.0, on each of its three branches. *)
Theorem confidence64_bounds
    (km : dict (list str)) (el : option (dict str))
    (eng : AccountClassifier) (text : str) :
  init km el = inr eng ->
  normalize text <> [] ->
  receivable (normalize text) (keyword_map eng) ->
  exists r,
    run64 text eng = (eng, inr r)
    /\ (0.0 <=? confidence64 r)%float = true
    /\ (confidence64 r <=? 1.0)%float = true.
Proof.
  intros I NE R.
  destruct (init_inr lower km el eng I) as (_ & ND & _).
  destruct (classify64_cases lower isspace eng text ND NE R)
    as [(subject & _ & Run) | [(_ & _ & Run) | (_ & W)]].
  - eexists. split; [exact Run|]. cbn [confidence64]. split; reflexivity.
  - eexists. split; [exact Run|]. cbn [confidence64]. split; reflexivity.
  - destruct W as (pre & code & keywords & post & _ & _ & S & Run & _).
    destruct (confidence64_range _ S) as [P U].
    eexists. split; [exact Run|]. cbn [confidence64].
    split; [apply float_ltb_leb; exact P | exact U].
Qed.

Lemma classify64_exact (self : AccountClassifier) (text subject : str) :
  normalize text <> [] ->
  dict_get (normalize text) (exact_lookup self) = Some subject ->
  run64 text self
  = (self, inr (mkResult64 subject 1.0 [normalize text])).
Proof.
  intros NE G. unfold classify64, bind, attr, ret. cbv beta in NE, G.
  destruct (strip isspace (lower text)) as [|c n]; [congruence|].
  cbn [is_empty]. cbv beta iota. rewrite G. reflexivity.
Qed.

(** X15: the exact-rational reading and the binary64 reading of
    [classify] agree wherever no score is compared.  For an engine built
    by the constructor: one raises exactly when the other does, with the
    same error; on an exact key both return the key's code, 1.0 and the
    normalized text; and, for a text of receivable size, one returns the
    ["UNCLASSIFIED"] fallback exactly when the other does. *)
Theorem readings_agree_off_scan
    (km : dict (list str)) (el : option (dict str))
    (eng : AccountClassifier) (text : str) :
  init km el = inr eng ->
  let n := normalize text in
  (forall e, run text eng = (eng, inl e) <-> run64 text eng = (eng, inl e))
  /\ (forall subject,
         n <> [] ->
         dict_get n (exact_lookup eng) = Some subject ->
         run text eng = (eng, inr (mkResult subject 1.0 [n]))
         /\ run64 text eng = (eng, inr (mkResult64 subject 1.0 [n])))
  /\ (receivable n (keyword_map eng) ->
      (run text eng = (eng, inr (mkResult (str_of "UNCLASSIFIED") 0.0 []))
       <-> run64 text eng
           = (eng, inr (mkResult64 (str_of "UNCLASSIFIED") 0.0 [])))).
Proof.
  intros I n.
  destruct (init_inr lower km el eng I) as (_ & ND & _).
  split; [|split].
  - intros e. split; intros H.
    + destruct (classify_error _ _ _ _ H) as [-> E].
      apply classify64_empty. exact E.
    + destruct (classify64_error _ _ _ _ H) as [-> E].
      apply classify_empty. exact E.
  - intros subject NE G. split.
    + exact (classify_exact lower isspace eng text subject NE G).
    + exact (classify64_exact eng text subject NE G).
  - intros R. destruct (list_eq_dec N.eq_dec n []) as [E|NE].
    { rewrite (classify_empty lower isspace eng text E).
      rewrite (classify64_empty eng text E).
      split; discriminate. }
    destruct (classify_cases lower isspace eng text ND NE)
      as [(s1 & G1 & R1) | [(G1 & A1 & R1) | (G1 & W1)]];
      destruct (classify64_cases lower isspace eng text ND NE R)
        as [(s2 & G2 & R2) | [(G2 & A2 & R2) | (G2 & W2)]];
      cbv beta in G1, G2; try congruence.
    + rewrite R1, R2. split; intros H; discriminate.
    + split; intros _; assumption.
    + exfalso.
      destruct W2 as (pre & code & keywords & post & E & M & _).
      apply M. apply (A1 code). rewrite E.
      apply in_or_app. right. left. reflexivity.
    + exfalso.
      destruct W1 as (pre & code & keywords & post & E & M & _).
      apply M. apply (A2 code). rewrite E.
      apply in_or_app. right. left. reflexivity.
    + destruct W1 as (pre1 & c1 & k1 & post1 & _ & M1 & R1 & _).
      destruct W2 as (pre2 & c2 & k2 & post2 & _ & M2 & _ & R2 & _).
      rewrite R1, R2. split; intros H.
      * injection H as _ _ H. exfalso. exact (M1 H).
      * injection H as _ _ H. exfalso. exact (M2 H).
Qed.

End Agreement.

(* ------------------------------------------------------------------ *)
(** ** The binary64 properties at concrete inputs *)

Example rounding_engine_init :
  AccountClassifier_init lower_basic rounding_rules None
  = inr rounding_engine.
Proof. reflexivity. Qed.

(** [sample_engine.classify("taxi wifi")] as the source computes it: the
    codes 611 and 622 score alike, the first one is returned, and the
    confidence is 0.43750000000000006 where exact arithmetic gives 7/16. *)
Example sample_scan_binary64 :
  classify64 lower_basic isspace_basic (str_of "taxi wifi") sample_engine
  = (sample_engine,
     inr (mkResult64 (str_of "611") 0.43750000000000006 [str_of "taxi"])).
Proof. vm_compute. reflexivity. Qed.

(** In ["taxi wifi"] the codes 611 and 622 score alike; one is returned,
    with its match. *)
Lemma tie_witness_binary64 :
  exists r,
    classify64 lower_basic isspace_basic (str_of "taxi wifi") sample_engine
    = (sample_engine, inr r)
    /\ matched_keywords64 r <> [].
Proof.
  destruct (first_maximal_code_wins_binary64 lower_basic isspace_basic
              sample_rules (Some sample_lookup) sample_engine
              (str_of "taxi wifi"))
    as (pre & code & keywords & post & r & _ & R & _ & MK & NE & _).
  - reflexivity.
  - vm_compute. discriminate.
  - split; [reflexivity|].
    intros code keywords [E|[E|[]]]; injection E as <- <-; reflexivity.
  - vm_compute. intros [H|[]]. discriminate.
  - exists (str_of "611"), [str_of "taxi"; str_of "train"], (str_of "taxi").
    split; [left; reflexivity|]. split; [left; reflexivity | reflexivity].
  - exists r. split; [exact R|]. rewrite MK. exact NE.
Defined.

(** The confidence of ["taxi wifi"] is the unclamped quotient, below
    1.0. *)
Lemma scan_confidence_witness_binary64 :
  exists r,
    classify64 lower_basic isspace_basic (str_of "taxi wifi") sample_engine
    = (sample_engine, inr r)
    /\ (confidence64 r <? 1.0)%float = true.
Proof.
  destruct (scan_confidence_formula_binary64 lower_basic isspace_basic
              sample_rules (Some sample_lookup) sample_engine
              (str_of "taxi wifi"))
    as (r & keywords & R & _ & _ & _ & _ & U).
  - reflexivity.
  - vm_compute. discriminate.
  - split; [reflexivity|].
    intros code keywords [E|[E|[]]]; injection E as <- <-; reflexivity.
  - vm_compute. intros [H|[]]. discriminate.
  - exists (str_of "611"), [str_of "taxi"; str_of "train"], (str_of "taxi").
    split; [left; reflexivity|]. split; [left; reflexivity | reflexivity].
  - exists r. split; [exact R | exact U].
Defined.



Lemma empty_keyword_witness :
  exists r,
    classify64 lower_basic isspace_basic (str_of "hello")
      empty_keyword_engine
    = (empty_keyword_engine, inr r)
    /\ matched_keywords64 r <> []
    /\ (0.0 <? confidence64 r)%float = true.
Proof.
  apply (empty_keyword_always_matches lower_basic isspace_basic
           empty_keyword_rules None empty_keyword_engine (str_of "hello")).
  - reflexivity.
  - vm_compute. discriminate.
  - split; [reflexivity|].
    intros code keywords [E|[E|[]]]; injection E as <- <-; reflexivity.
  - vm_compute. intros [].
  - exists (str_of "999"), [str_of ""].
    split; [right; left; reflexivity | left; reflexivity].
Defined.

Lemma confidence64_bounds_witness :
  exists r,
    classify64 lower_basic isspace_basic (str_of "taxi wifi") sample_engine
    = (sample_engine, inr r)
    /\ (0.0 <=? confidence64 r)%float = true
    /\ (confidence64 r <=? 1.0)%float = true.
Proof.
  apply (confidence64_bounds lower_basic isspace_basic
           sample_rules (Some sample_lookup) sample_engine
           (str_of "taxi wifi")).
  - reflexivity.
  - vm_compute. discriminate.
  - split; [reflexivity|].
    intros code keywords [E|[E|[]]]; injection E as <- <-; reflexivity.
Defined.

Lemma readings_agree_witness :
  classify lower_basic isspace_basic (str_of " NTT ") sample_engine
  = (sample_engine, inr (mkResult (str_of "622") 1.0 [str_of "ntt"]))
  /\ classify64 lower_basic isspace_basic (str_of " NTT ") sample_engine
     = (sample_engine, inr (mkResult64 (str_of "622") 1.0 [str_of "ntt"])).
Proof.
  destruct (readings_agree_off_scan lower_basic isspace_basic
              sample_rules (Some sample_lookup) sample_engine
              (str_of " NTT ")) as (_ & H & _).
  - reflexivity.
  - apply (H (str_of "622")).
    + vm_compute. discriminate.
    + reflexivity.
Defined.

(** X16: rounding can separate two codes whose exact scores tie.  On
    ["abcdefgh"] the codes 611 and 622 of [rounding_rules] both score
    39/20 in exact arithmetic; in binary64 the first scores
    1.9499999999999997 and the second 1.95, and [classify] returns the
    second. *)
Theorem rounding_separates_exact_tie :
  let n := strip isspace_basic (lower_basic (str_of "abcdefgh")) in
  let first := matching_keywords n [str_of "a"; str_of "b"; str_of "c"] in
  let second := matching_keywords n [str_of "abcdefgh"; str_of "abcdefg"] in
  (score_of n first == score_of n second)%Q
  /\ score64 n first = 1.9499999999999997%float
  /\ score64 n second = 1.95%float
  /\ (score64 n first <? score64 n second)%float = true
  /\ classify64 lower_basic isspace_basic (str_of "abcdefgh")
       rounding_engine
     = (rounding_engine,
        inr (mkResult64 (str_of "622") 0.66101694915254228
               [str_of "abcdefgh"; str_of "abcdefg"])).
Proof.
  cbv zeta. split; [vm_compute; reflexivity|].
  split; [vm_compute; reflexivity|]. split; [vm_compute; reflexivity|].
  split; vm_compute; reflexivity.
Qed.

(** X17: the confidence does not always follow the score.  With
    [rounding_rules], ["abcxxxxx"] wins with the score 1.9499999999999997
    and ["abcdefgh"] with the greater score 1.95, yet the first confidence,
    0.66101694915254239, is the greater one. *)
Theorem confidence_not_monotone_in_score :
  exists r1 r2,
    classify64 lower_basic isspace_basic (str_of "abcxxxxx") rounding_engine
    = (rounding_engine, inr r1)
    /\ classify64 lower_basic isspace_basic (str_of "abcdefgh")
         rounding_engine
       = (rounding_engine, inr r2)
    /\ (score64 (str_of "abcxxxxx") (matched_keywords64 r1)
        <? score64 (str_of "abcdefgh") (matched_keywords64 r2))%float = true
    /\ (confidence64 r2 <? confidence64 r1)%float = true.
Proof.
  eexists. eexists.
  split; [vm_compute; reflexivity|]. split; [vm_compute; reflexivity|].
  split; vm_compute; reflexivity.
Qed.
